(** * thinc.neural.optimizers: SGD, Adam and the Eve wrapper

    A shallow embedding of [thinc/neural/optimizers.pyx].

    Numbers.  Python floats and the entries of numpy arrays are modelled
    as real numbers ([R]): rounding, infinities and NaN are outside the
    model.  What Python itself does with a zero divisor is kept: [/] on
    two Python floats raises [ZeroDivisionError], which the model makes
    explicit ([py_div]); numpy's elementwise [/] and [numpy.sqrt] raise
    nothing and are the total operations of [R].

    Objects.  An optimizer is an object with mutable attributes; the
    arrays [weights] and [gradient] belong to the caller and are mutated
    in place.  A call is therefore a computation over a [frame]: the
    receiver together with the two arrays (taken to be distinct objects).
    An exception leaves behind whatever was mutated before it was raised,
    so computations are state passing with the state kept on both
    outcomes (type [M]).

    Arrays are one-dimensional, as the buffers handed to the optimizers
    are; in-place arithmetic follows numpy's broadcasting rule for them. *)

From Stdlib Require Import Reals Lra Lia.
From stdpp Require Import base option list gmap.

Open Scope R_scope.

(** ** Exceptions and the state-and-exception monad *)

Inductive exn : Set :=
| AssertionError
| ValueError
| ZeroDivisionError
| TypeError.

Definition M (St A : Type) : Type := St -> (exn + A) * St.

Definition ret {St A} (a : A) : M St A := fun s => (inr a, s).

Definition raise {St A} (e : exn) : M St A := fun s => (inl e, s).

Definition bind {St A B} (m : M St A) (k : A -> M St B) : M St B :=
  fun s =>
    match m s with
    | (inr a, s') => k a s'
    | (inl e, s') => (inl e, s')
    end.

Definition gets {St A} (f : St -> A) : M St A := fun s => (inr (f s), s).

Definition modify {St} (f : St -> St) : M St unit := fun s => (inr tt, f s).

(** A computation that may raise but touches no state. *)
Definition lift {St A} (r : exn + A) : M St A := fun s => (r, s).

(** An in-place operation: on an exception the object is left as it was. *)
Definition modify_or_raise {St} (f : St -> exn + St) : M St unit :=
  fun s =>
    match f s with
    | inr s' => (inr tt, s')
    | inl e => (inl e, s)
    end.

(** Python's [assert]. *)
Definition assert {St} (b : bool) : M St unit :=
  if b then ret tt else raise AssertionError.

Notation "'let*' x ':=' m 'in' k" := (bind m (fun x => k))
  (at level 10, x name, m at level 100, k at level 200).
Notation "m ';;;' k" := (bind m (fun _ => k))
  (at level 100, k at level 200, right associativity).

(** ** numpy arrays *)

Abbreviation ndarray := (list R).

#[local] Instance R_eq_dec : EqDecision R := Req_dec_T.

(** [c * a] and [a * c] for a scalar [c]. *)
Definition smul (c : R) (a : ndarray) : ndarray := (fun x => c * x) <$> a.
Definition muls (a : ndarray) (c : R) : ndarray := (fun x => x * c) <$> a.

(** The operand of an in-place operation on an array of [n] entries: an
    array of [n] entries, or of one entry that is repeated. *)
Definition broadcast (n : nat) (b : ndarray) : exn + ndarray :=
  if decide (length b = n) then inr b
  else match b with
       | [x] => inr (replicate n x)
       | _ => inl ValueError
       end.

Definition inplace (f : R -> R -> R) (b a : ndarray) : exn + ndarray :=
  match broadcast (length a) b with
  | inr b' => inr (zip_with f a b')
  | inl e => inl e
  end.

(** [a -= b] and [a += b]. *)
Definition isub (b : ndarray) : ndarray -> exn + ndarray := inplace Rminus b.
Definition iadd (b : ndarray) : ndarray -> exn + ndarray := inplace Rplus b.

(** [a.fill(0)]. *)
Definition fill0 (a : ndarray) : ndarray := replicate (length a) 0.

(** The Euclidean norm. *)
Definition norm (a : ndarray) : R := sqrt (foldr Rplus 0 ((fun x => x * x) <$> a)).

(** [/] on Python floats. *)
Definition py_div (x y : R) : exn + R :=
  if decide (y = 0) then inl ZeroDivisionError else inr (x / y).

(** ** The numeric operations ([self.ops]) *)

(** Modelled from the spec: [ops.allocate] is not among the sources; the
    buffers it returns are "zero-initialized" and of the length asked
    for. *)
Definition ops_allocate (n : nat) : ndarray := replicate n 0.

(** Modelled from the spec: [ops.clip_gradient] is not among the sources;
    "given a gradient whose norm exceeds the configured ceiling, after
    clipping its norm equals the ceiling; a gradient already under the
    ceiling is unchanged".  The gradient is rescaled in place. *)
Definition ops_clip_gradient (gradient : ndarray) (threshold : R) : ndarray :=
  if Rlt_dec threshold (norm gradient)
  then muls gradient (threshold / norm gradient)
  else gradient.

(** Modelled from the spec: [ops.adam] is not among the sources; it is
    "the canonical Adam rule: mom1 = beta1*mom1 + (1-beta1)*gradient;
    mom2 = beta2*mom2 + (1-beta2)*gradient^2;
    weights -= lr * mom1 / (sqrt(mom2) + epsilon), elementwise", and a
    "weights/gradient/buffer length disagreement" is a "fatal precondition
    failure".  The result lists the new [weights], [mom1] and [mom2]. *)
Definition adam_mom1 (beta1 : R) (mom1 gradient : ndarray) : ndarray :=
  zip_with (fun m g => beta1 * m + (1 - beta1) * g) mom1 gradient.

Definition adam_mom2 (beta2 : R) (mom2 gradient : ndarray) : ndarray :=
  zip_with (fun m g => beta2 * m + (1 - beta2) * (g * g)) mom2 gradient.

Definition adam_weights (eps lr : R) (weights mom1 mom2 : ndarray) : ndarray :=
  zip_with (fun w m => w - lr * m.1 / (sqrt m.2 + eps)) weights (zip mom1 mom2).

Definition ops_adam (weights gradient mom1 mom2 : ndarray)
    (beta1 beta2 eps lr : R) : exn + (ndarray * ndarray * ndarray) :=
  if decide (length gradient = length weights
             /\ length mom1 = length weights
             /\ length mom2 = length weights)
  then
    let mom1' := adam_mom1 beta1 mom1 gradient in
    let mom2' := adam_mom2 beta2 mom2 gradient in
    inr (adam_weights eps lr weights mom1' mom2', mom1', mom2')
  else inl ValueError.

(** The [ops] object handed to the constructors.  Its
    [update_averages(avg, weights, nr_upd)] is not among the sources and
    the spec leaves the arithmetic open ("a function of the current
    weights and the counter value"), so the new contents of [avg] are a
    field of the object.  A length disagreement is a failure, as for
    [ops_adam]. *)
Record Ops : Type := {
  update_averages : ndarray -> ndarray -> nat -> ndarray
}.

Definition ops_update_averages (ops : Ops) (weights : ndarray) (nr_upd : nat)
    (avg : ndarray) : exn + ndarray :=
  if decide (length avg = length weights)
  then inr (update_averages ops avg weights nr_upd)
  else inl ValueError.

(** ** The schedule *)

Definition linear_decay (rate decay : R) (nr_upd : nat) : exn + R :=
  py_div (rate * 1) (1 + decay * INR nr_upd).

(** ** Call frames *)

Record frame (O : Type) : Type := Frame {
  self : O;
  weights : ndarray;
  gradient : ndarray
}.
Arguments Frame {O} _ _ _.
Arguments self {O} _.
Arguments weights {O} _.
Arguments gradient {O} _.

Definition set_self {O P} (o : P) (fr : frame O) : frame P :=
  Frame o (weights fr) (gradient fr).
Definition set_weights {O} (w : ndarray) (fr : frame O) : frame O :=
  Frame (self fr) w (gradient fr).
Definition set_gradient {O} (g : ndarray) (fr : frame O) : frame O :=
  Frame (self fr) (weights fr) g.

(** An in-place operation on [weights], and one on [gradient]. *)
Definition on_weights {O} (f : ndarray -> exn + ndarray) : M (frame O) unit :=
  modify_or_raise (fun fr =>
    match f (weights fr) with
    | inr w => inr (set_weights w fr)
    | inl e => inl e
    end).

Definition on_gradient {O} (f : ndarray -> exn + ndarray) : M (frame O) unit :=
  modify_or_raise (fun fr =>
    match f (gradient fr) with
    | inr g => inr (set_gradient g fr)
    | inl e => inl e
    end).

(** Run a computation of an inner object [o] on the caller's arrays and
    store the object it leaves with [put]. *)
Definition with_self {O P A} (o : O) (put : O -> P) (m : M (frame O) A)
  : M (frame P) A :=
  fun fr =>
    let (r, fr') := m (set_self o fr) in
    (r, set_self (put (self fr')) fr').

(** ** The optimizers *)

Section Optimizers.

(** Parameter-group keys: any hashable value.  [None] is a key like any
    other for a dictionary, so the dictionaries are keyed by [option K]. *)
Context {K : Type} `{Countable K}.

(** A [defaultdict(int)]: a missing key reads as 0. *)
Definition counter (nr_update : gmap (option K) nat) (key : option K) : nat :=
  default 0%nat (nr_update !! key).

(** [d[key] += 1] on a [defaultdict(int)]. *)
Definition incr (key : option K) (nr_update : gmap (option K) nat)
  : gmap (option K) nat :=
  <[key := (counter nr_update key + 1)%nat]> nr_update.

(** [if key not in d: d[key] = ops.allocate(n)]. *)
Definition setdefault_zeros (key : option K) (n : nat)
    (d : gmap (option K) ndarray) : gmap (option K) ndarray :=
  match d !! key with
  | Some _ => d
  | None => <[key := ops_allocate n]> d
  end.

(** An in-place operation on the array stored as [d[key]]; every use
    comes after the key has been given a buffer. *)
Definition at_key (key : option K) (f : ndarray -> exn + ndarray)
    (d : gmap (option K) ndarray) : exn + gmap (option K) ndarray :=
  match f (d !!! key) with
  | inr a => inr (<[key := a]> d)
  | inl e => inl e
  end.

(** *** SGD *)

Record SGD : Type := {
  SGD_ops : Ops;
  SGD_alpha : R;
  SGD_mu : R;
  SGD_decay : R;
  SGD_max_grad_norm : R;
  SGD_momentums : gmap (option K) ndarray;
  SGD_averages : option (gmap (option K) ndarray);
  SGD_nr_update : gmap (option K) nat
}.

(** [SGD.__init__(ops, lr, momentum=0.0, decay=0.0, averages=True)]. *)
Definition SGD_init (ops : Ops) (lr momentum decay : R) (averages : bool) : SGD :=
  {| SGD_ops := ops;
     SGD_alpha := lr;
     SGD_mu := momentum;
     SGD_decay := decay;
     SGD_max_grad_norm := 100;
     SGD_momentums := ∅;
     SGD_averages := if averages then Some ∅ else None;
     SGD_nr_update := ∅ |}.

Definition SGD_set_momentums (m : gmap (option K) ndarray) (s : SGD) : SGD :=
  {| SGD_ops := SGD_ops s;
     SGD_alpha := SGD_alpha s; SGD_mu := SGD_mu s; SGD_decay := SGD_decay s;
     SGD_max_grad_norm := SGD_max_grad_norm s;
     SGD_momentums := m;
     SGD_averages := SGD_averages s; SGD_nr_update := SGD_nr_update s |}.

Definition SGD_set_averages (a : option (gmap (option K) ndarray)) (s : SGD) : SGD :=
  {| SGD_ops := SGD_ops s;
     SGD_alpha := SGD_alpha s; SGD_mu := SGD_mu s; SGD_decay := SGD_decay s;
     SGD_max_grad_norm := SGD_max_grad_norm s;
     SGD_momentums := SGD_momentums s;
     SGD_averages := a; SGD_nr_update := SGD_nr_update s |}.

Definition SGD_set_nr_update (n : gmap (option K) nat) (s : SGD) : SGD :=
  {| SGD_ops := SGD_ops s;
     SGD_alpha := SGD_alpha s; SGD_mu := SGD_mu s; SGD_decay := SGD_decay s;
     SGD_max_grad_norm := SGD_max_grad_norm s;
     SGD_momentums := SGD_momentums s;
     SGD_averages := SGD_averages s; SGD_nr_update := n |}.

Definition SGD_lr (s : SGD) (nr_upd : nat) : exn + R :=
  linear_decay (SGD_alpha s) (SGD_decay s) nr_upd.

(** An in-place operation on [self.momentums[key]]. *)
Definition SGD_on_momentum (key : option K) (f : ndarray -> exn + ndarray)
  : M (frame SGD) unit :=
  modify_or_raise (fun fr =>
    match at_key key f (SGD_momentums (self fr)) with
    | inr m => inr (set_self (SGD_set_momentums m (self fr)) fr)
    | inl e => inl e
    end).

(** The block the two optimizers share,
    [if self.averages is not None: ...]; [get] and [put] read and write
    the receiver's [averages] attribute. *)
Definition track_average {O} (ops : O -> Ops)
    (get : O -> option (gmap (option K) ndarray))
    (put : option (gmap (option K) ndarray) -> O -> O)
    (key : option K) (nr_upd : nat) : M (frame O) unit :=
  let* averages := gets (fun fr => get (self fr)) in
  match averages with
  | None => ret tt
  | Some a =>
      let* w := gets weights in
      let a1 := setdefault_zeros key (length w) a in
      modify (fun fr => set_self (put (Some a1) (self fr)) fr) ;;;
      modify_or_raise (fun fr =>
        match at_key key (ops_update_averages (ops (self fr)) w nr_upd) a1 with
        | inr a2 => inr (set_self (put (Some a2) (self fr)) fr)
        | inl e => inl e
        end)
  end.

(** [SGD.__call__(weights, gradient, key=None, lr_scale=1.)]. *)
Definition SGD_call (key : option K) (lr_scale : R) : M (frame SGD) unit :=
  modify (fun fr =>
    set_self (SGD_set_nr_update (incr key (SGD_nr_update (self fr))) (self fr)) fr) ;;;
  let* nr_upd := gets (fun fr => counter (SGD_nr_update (self fr)) key) in
  let* lr := (fun fr => lift (SGD_lr (self fr) nr_upd) fr) in
  let lr := lr * lr_scale in
  modify (fun fr =>
    set_gradient (ops_clip_gradient (gradient fr) (SGD_max_grad_norm (self fr))) fr) ;;;
  let* mu := gets (fun fr => SGD_mu (self fr)) in
  (if bool_decide (key = None) || bool_decide (mu = 0)
   then
     let* g := gets gradient in
     on_weights (isub (smul lr g)) ;;;
     modify (fun fr => set_gradient (fill0 (gradient fr)) fr)
   else
     let* n := gets (fun fr => length (weights fr)) in
     modify (fun fr =>
       set_self (SGD_set_momentums
                   (setdefault_zeros key n (SGD_momentums (self fr)))
                   (self fr)) fr) ;;;
     SGD_on_momentum key (fun m => inr (muls m mu)) ;;;
     let* g := gets gradient in
     SGD_on_momentum key (iadd (muls g lr)) ;;;
     let* momentum := gets (fun fr => SGD_momentums (self fr) !!! key) in
     on_weights (isub momentum) ;;;
     modify (fun fr => set_gradient (fill0 (gradient fr)) fr)) ;;;
  track_average SGD_ops SGD_averages SGD_set_averages key nr_upd.

(** [SGD.set_loss]: [pass]. *)
Definition SGD_set_loss (loss : R) : M SGD unit := ret tt.

(** *** Adam *)

Record Adam : Type := {
  Adam_ops : Ops;
  Adam_mom1 : gmap (option K) ndarray;
  Adam_mom2 : gmap (option K) ndarray;
  Adam_averages : option (gmap (option K) ndarray);
  Adam_nr_update : gmap (option K) nat;
  Adam_last_seen : gmap (option K) nat;
  Adam_max_grad_norm : R;
  Adam_alpha : R;
  Adam_b1 : R;
  Adam_b2 : R;
  Adam_eps : R;
  Adam_decay : R;
  Adam_d : R;
  Adam_f : R;
  Adam_L2 : R
}.

(** [Adam.__init__(ops, lr, L2=1e-4, beta1=0.90, beta2=0.999, eps=1e-08,
    decay=0.0)]. *)
Definition Adam_init (ops : Ops) (lr L2 beta1 beta2 eps decay : R) : Adam :=
  {| Adam_ops := ops;
     Adam_mom1 := ∅;
     Adam_mom2 := ∅;
     Adam_averages := Some ∅;
     Adam_nr_update := ∅;
     Adam_last_seen := ∅;
     Adam_max_grad_norm := 100;
     Adam_alpha := lr;
     Adam_b1 := beta1;
     Adam_b2 := beta2;
     Adam_eps := eps;
     Adam_decay := decay;
     Adam_d := 1;
     Adam_f := 0;
     Adam_L2 := L2 |}.

Definition Adam_set_mom1 (m : gmap (option K) ndarray) (s : Adam) : Adam :=
  {| Adam_ops := Adam_ops s;
     Adam_mom1 := m; Adam_mom2 := Adam_mom2 s; Adam_averages := Adam_averages s;
     Adam_nr_update := Adam_nr_update s; Adam_last_seen := Adam_last_seen s;
     Adam_max_grad_norm := Adam_max_grad_norm s; Adam_alpha := Adam_alpha s;
     Adam_b1 := Adam_b1 s; Adam_b2 := Adam_b2 s; Adam_eps := Adam_eps s;
     Adam_decay := Adam_decay s; Adam_d := Adam_d s; Adam_f := Adam_f s;
     Adam_L2 := Adam_L2 s |}.

Definition Adam_set_mom2 (m : gmap (option K) ndarray) (s : Adam) : Adam :=
  {| Adam_ops := Adam_ops s;
     Adam_mom1 := Adam_mom1 s; Adam_mom2 := m; Adam_averages := Adam_averages s;
     Adam_nr_update := Adam_nr_update s; Adam_last_seen := Adam_last_seen s;
     Adam_max_grad_norm := Adam_max_grad_norm s; Adam_alpha := Adam_alpha s;
     Adam_b1 := Adam_b1 s; Adam_b2 := Adam_b2 s; Adam_eps := Adam_eps s;
     Adam_decay := Adam_decay s; Adam_d := Adam_d s; Adam_f := Adam_f s;
     Adam_L2 := Adam_L2 s |}.

Definition Adam_set_averages (a : option (gmap (option K) ndarray)) (s : Adam) : Adam :=
  {| Adam_ops := Adam_ops s;
     Adam_mom1 := Adam_mom1 s; Adam_mom2 := Adam_mom2 s; Adam_averages := a;
     Adam_nr_update := Adam_nr_update s; Adam_last_seen := Adam_last_seen s;
     Adam_max_grad_norm := Adam_max_grad_norm s; Adam_alpha := Adam_alpha s;
     Adam_b1 := Adam_b1 s; Adam_b2 := Adam_b2 s; Adam_eps := Adam_eps s;
     Adam_decay := Adam_decay s; Adam_d := Adam_d s; Adam_f := Adam_f s;
     Adam_L2 := Adam_L2 s |}.

Definition Adam_set_nr_update (n : gmap (option K) nat) (s : Adam) : Adam :=
  {| Adam_ops := Adam_ops s;
     Adam_mom1 := Adam_mom1 s; Adam_mom2 := Adam_mom2 s;
     Adam_averages := Adam_averages s;
     Adam_nr_update := n; Adam_last_seen := Adam_last_seen s;
     Adam_max_grad_norm := Adam_max_grad_norm s; Adam_alpha := Adam_alpha s;
     Adam_b1 := Adam_b1 s; Adam_b2 := Adam_b2 s; Adam_eps := Adam_eps s;
     Adam_decay := Adam_decay s; Adam_d := Adam_d s; Adam_f := Adam_f s;
     Adam_L2 := Adam_L2 s |}.

(** [Adam.lr]: [alpha * numpy.sqrt(fix2) / fix1]. *)
Definition Adam_lr (s : Adam) (nr_upd : nat) : exn + R :=
  match linear_decay (Adam_alpha s) (Adam_decay s) nr_upd with
  | inr alpha =>
      let fix1 := 1 - Adam_b1 s ^ nr_upd in
      let fix2 := 1 - Adam_b2 s ^ nr_upd in
      inr (alpha * sqrt fix2 / fix1)
  | inl e => inl e
  end.

(** The call [self.ops.adam(weights, gradient, mom1, mom2, b1, b2, eps, lr)]
    on the arrays of the frame and the two buffers stored under [key]. *)
Definition Adam_fused_update (key : option K) (b1 b2 eps lr : R)
  : M (frame Adam) unit :=
  modify_or_raise (fun fr =>
    let s := self fr in
    match ops_adam (weights fr) (gradient fr)
                   (Adam_mom1 s !!! key) (Adam_mom2 s !!! key) b1 b2 eps lr with
    | inr (w, m1, m2) =>
        inr (Frame (Adam_set_mom2 (<[key := m2]> (Adam_mom2 s))
                      (Adam_set_mom1 (<[key := m1]> (Adam_mom1 s)) s))
                   w (gradient fr))
    | inl e => inl e
    end).

(** [Adam.__call__(weights, gradient, lr_scale=1., key=None)]. *)
Definition Adam_call (lr_scale : R) (key : option K) : M (frame Adam) unit :=
  assert (negb (bool_decide (key = None))) ;;;
  let* len_gradient := gets (fun fr => length (gradient fr)) in
  assert (bool_decide (1 <= len_gradient)%nat) ;;;
  let* n := gets (fun fr => length (weights fr)) in
  modify (fun fr =>
    set_self (Adam_set_mom1 (setdefault_zeros key n (Adam_mom1 (self fr)))
                (self fr)) fr) ;;;
  modify (fun fr =>
    set_self (Adam_set_mom2 (setdefault_zeros key n (Adam_mom2 (self fr)))
                (self fr)) fr) ;;;
  modify (fun fr =>
    set_self (Adam_set_nr_update (incr key (Adam_nr_update (self fr)))
                (self fr)) fr) ;;;
  let* nr_upd := gets (fun fr => counter (Adam_nr_update (self fr)) key) in
  let* L2 := gets (fun fr => Adam_L2 (self fr)) in
  let* w := gets weights in
  on_gradient (iadd (smul L2 w)) ;;;
  modify (fun fr =>
    set_gradient
      (ops_clip_gradient (gradient fr) (INR (length (gradient fr)) / 100)) fr) ;;;
  let* lr := (fun fr => lift (Adam_lr (self fr) nr_upd) fr) in
  let lr := lr * lr_scale in
  let* b1 := gets (fun fr => Adam_b1 (self fr)) in
  let* b2 := gets (fun fr => Adam_b1 (self fr)) in
  let* eps := gets (fun fr => Adam_eps (self fr)) in
  Adam_fused_update key b1 b2 eps lr ;;;
  modify (fun fr => set_gradient (fill0 (gradient fr)) fr) ;;;
  track_average Adam_ops Adam_averages Adam_set_averages key nr_upd.

(** [Adam.set_loss]: [pass]. *)
Definition Adam_set_loss (loss : R) : M Adam unit := ret tt.

(** *** Eve *)

(** The object an [Eve] wraps: anything callable as
    [optimizer(weights, gradient, key=..., lr_scale=...)]. *)
Inductive optimizer : Type :=
| OptSGD (s : SGD)
| OptAdam (a : Adam).

Definition optimizer_call (key : option K) (lr_scale : R)
  : M (frame optimizer) unit :=
  fun fr =>
    match self fr with
    | OptSGD s => with_self s OptSGD (SGD_call key lr_scale) fr
    | OptAdam a => with_self a OptAdam (Adam_call lr_scale key) fr
    end.

Definition optimizer_nr_update (o : optimizer) : gmap (option K) nat :=
  match o with
  | OptSGD s => SGD_nr_update s
  | OptAdam a => Adam_nr_update a
  end.

Record Eve : Type := {
  Eve_optimizer : optimizer;
  Eve_b3 : R;
  Eve_lower_threshold : R;
  Eve_upper_threshold : R;
  Eve_d : R;
  Eve_f : option R
}.

(** [Eve.__init__(optimizer)]. *)
Definition Eve_init (o : optimizer) : Eve :=
  {| Eve_optimizer := o;
     Eve_b3 := 0.999;
     Eve_lower_threshold := 0.1;
     Eve_upper_threshold := 10;
     Eve_d := 1;
     Eve_f := None |}.

Definition Eve_set_optimizer (o : optimizer) (e : Eve) : Eve :=
  {| Eve_optimizer := o; Eve_b3 := Eve_b3 e;
     Eve_lower_threshold := Eve_lower_threshold e;
     Eve_upper_threshold := Eve_upper_threshold e;
     Eve_d := Eve_d e; Eve_f := Eve_f e |}.

Definition Eve_set_d (d : R) (e : Eve) : Eve :=
  {| Eve_optimizer := Eve_optimizer e; Eve_b3 := Eve_b3 e;
     Eve_lower_threshold := Eve_lower_threshold e;
     Eve_upper_threshold := Eve_upper_threshold e;
     Eve_d := d; Eve_f := Eve_f e |}.

Definition Eve_set_f (f : option R) (e : Eve) : Eve :=
  {| Eve_optimizer := Eve_optimizer e; Eve_b3 := Eve_b3 e;
     Eve_lower_threshold := Eve_lower_threshold e;
     Eve_upper_threshold := Eve_upper_threshold e;
     Eve_d := Eve_d e; Eve_f := f |}.

(** [Eve.__call__(weights, gradient, key=None)]. *)
Definition Eve_call (key : option K) : M (frame Eve) unit :=
  fun fr =>
    let e := self fr in
    with_self (Eve_optimizer e) (fun o => Eve_set_optimizer o e)
              (optimizer_call key (Eve_d e)) fr.

(** [Eve._get_c(loss, old_f)]. *)
Definition Eve_get_c (e : Eve) (loss old_f : R) : exn + R :=
  let bounds :=
    if Rlt_dec loss old_f
    then inr (Eve_lower_threshold e + 1, Eve_upper_threshold e + 1)
    else
      match py_div 1 (Eve_upper_threshold e + 1) with
      | inr delta =>
          match py_div 1 (Eve_lower_threshold e + 1) with
          | inr Delta => inr (delta, Delta)
          | inl x => inl x
          end
      | inl x => inl x
      end in
  match bounds with
  | inr (delta, Delta) =>
      match py_div loss old_f with
      | inr q => inr (Rmin (Rmax delta q) delta)
      | inl x => inl x
      end
  | inl x => inl x
  end.

(** [Eve.set_loss(loss)]. *)
Definition Eve_set_loss (loss : R) : M Eve unit :=
  let* f := gets Eve_f in
  match f with
  | None => modify (Eve_set_f (Some loss))
  | Some old_f =>
      let* d := gets Eve_d in
      let* c := (fun e => lift (Eve_get_c e loss old_f) e) in
      let new_f := c * loss in
      let* r := lift (py_div (Rabs (new_f - old_f)) (Rmin new_f old_f)) in
      let* b3 := gets Eve_b3 in
      let new_d := d + (1 - b3) * (r - d) in
      modify (Eve_set_d new_d) ;;;
      modify (Eve_set_f (Some new_f))
  end.

(** ** An optimizer instance over its lifetime *)

Inductive instance : Type :=
| Plain (o : optimizer)
| Wrapped (e : Eve).

(** The update counters an instance answers with ([Eve.__getattr__]
    forwards [nr_update] to the wrapped optimizer). *)
Definition nr_update (i : instance) : gmap (option K) nat :=
  match i with
  | Plain o => optimizer_nr_update o
  | Wrapped e => optimizer_nr_update (Eve_optimizer e)
  end.

(** [instance(weights, gradient, key=key)] when [lr_scale] is [None], and
    [instance(weights, gradient, key=key, lr_scale=x)] when it is
    [Some x]; [Eve.__call__] has no such parameter. *)
Definition update (key : option K) (lr_scale : option R)
  : M (frame instance) unit :=
  fun fr =>
    match self fr with
    | Plain o => with_self o Plain (optimizer_call key (default 1 lr_scale)) fr
    | Wrapped e =>
        match lr_scale with
        | None => with_self e Wrapped (Eve_call key) fr
        | Some _ => raise TypeError fr
        end
    end.

Definition set_loss (loss : R) : M instance unit :=
  fun i =>
    match i with
    | Plain (OptSGD s) =>
        let (r, s') := SGD_set_loss loss s in (r, Plain (OptSGD s'))
    | Plain (OptAdam a) =>
        let (r, a') := Adam_set_loss loss a in (r, Plain (OptAdam a'))
    | Wrapped e =>
        let (r, e') := Eve_set_loss loss e in (r, Wrapped e')
    end.

(** What a caller can do with an instance. *)
Inductive op : Type :=
| Update (weights gradient : ndarray) (key : option K) (lr_scale : option R)
| SetLoss (loss : R).

(** The instance after an operation, whether it returned or raised. *)
Definition step (i : instance) (o : op) : instance :=
  match o with
  | Update w g key lr_scale => self (update key lr_scale (Frame i w g)).2
  | SetLoss loss => (set_loss loss i).2
  end.

Definition run (i : instance) (ops : list op) : instance := foldl step i ops.

(** The key an operation updates, if it is an update. *)
Definition op_key (o : op) : option (option K) :=
  match o with
  | Update _ _ key _ => Some key
  | SetLoss _ => None
  end.

(** ** Derived attributes and invariants of the state *)

(** The [nr_iter] property of [SGD], which [Adam] inherits and [Eve]
    forwards, as a function of the dictionary [self.nr_update]. *)
Definition nr_iter (counters : gmap (option K) nat) : nat :=
  if decide (counters = ∅) then 0%nat
  else max_list ((map_to_list counters).*2).

Definition SGD_nr_iter (s : SGD) : nat := nr_iter (SGD_nr_update s).

Definition Adam_nr_iter (a : Adam) : nat := nr_iter (Adam_nr_update a).

(** The [averages] attribute an instance answers with. *)
Definition optimizer_averages (o : optimizer)
  : option (gmap (option K) ndarray) :=
  match o with
  | OptSGD s => SGD_averages s
  | OptAdam a => Adam_averages a
  end.

Definition averages (i : instance) : option (gmap (option K) ndarray) :=
  match i with
  | Plain o => optimizer_averages o
  | Wrapped e => optimizer_averages (Eve_optimizer e)
  end.

(** Every counter that is stored is at least 1. *)
Definition counted (counters : gmap (option K) nat) : Prop :=
  forall k n, counters !! k = Some n -> (1 <= n)%nat.

(** The keys of an [Adam]: moment buffers exist for exactly the keys that
    have a counter, [None] is not among them, and averages exist only
    for such keys. *)
Definition Adam_wf (a : Adam) : Prop :=
  (forall k, is_Some (Adam_mom1 a !! k) <-> is_Some (Adam_nr_update a !! k))
  /\ (forall k, is_Some (Adam_mom2 a !! k) <-> is_Some (Adam_nr_update a !! k))
  /\ Adam_nr_update a !! None = None
  /\ counted (Adam_nr_update a)
  /\ (forall avgs k, Adam_averages a = Some avgs -> is_Some (avgs !! k) ->
                     is_Some (Adam_nr_update a !! k)).

(** The keys of an [SGD]: momentum buffers and averages exist only for
    keys that have a counter, and no momentum buffer is stored under
    [None]. *)
Definition SGD_wf (s : SGD) : Prop :=
  (forall k, is_Some (SGD_momentums s !! k) -> is_Some (SGD_nr_update s !! k))
  /\ SGD_momentums s !! None = None
  /\ counted (SGD_nr_update s)
  /\ (forall avgs k, SGD_averages s = Some avgs -> is_Some (avgs !! k) ->
                     is_Some (SGD_nr_update s !! k)).

Definition optimizer_wf (o : optimizer) : Prop :=
  match o with
  | OptSGD s => SGD_wf s
  | OptAdam a => Adam_wf a
  end.

Definition instance_wf (i : instance) : Prop :=
  match i with
  | Plain o => optimizer_wf o
  | Wrapped e => optimizer_wf (Eve_optimizer e)
  end.

(** * Properties *)

(** ** Arrays *)

Lemma length_smul c a : length (smul c a) = length a.
Proof. unfold smul. apply length_fmap. Qed.

Lemma length_muls a c : length (muls a c) = length a.
Proof. unfold muls. apply length_fmap. Qed.

Lemma length_fill0 a : length (fill0 a) = length a.
Proof. unfold fill0. apply length_replicate. Qed.

Lemma length_ops_clip_gradient g t : length (ops_clip_gradient g t) = length g.
Proof.
  unfold ops_clip_gradient. destruct (Rlt_dec t (norm g)); [apply length_muls | done].
Qed.

Lemma broadcast_length n b b' : broadcast n b = inr b' -> length b' = n.
Proof.
  unfold broadcast. destruct (decide (length b = n)) as [E|E].
  - intros [= <-]. exact E.
  - destruct b as [|x [|y b]]; intros [= <-]. apply length_replicate.
Qed.

Lemma inplace_length f b a a' : inplace f b a = inr a' -> length a' = length a.
Proof.
  unfold inplace. destruct (broadcast (length a) b) as [e|b'] eqn:E; [done|].
  intros [= <-]. apply broadcast_length in E.
  rewrite length_zip_with. lia.
Qed.

Lemma inplace_same_length f b a :
  length b = length a -> inplace f b a = inr (zip_with f a b).
Proof.
  intros E. unfold inplace, broadcast. by rewrite decide_True.
Qed.

(** ** The running averages leave the arrays alone *)

Lemma track_average_arrays {O} (ops : O -> Ops) (get : O -> option (gmap (option K) ndarray))
    put key nr_upd (fr : frame O) r fr' :
  track_average ops get put key nr_upd fr = (r, fr') ->
  weights fr' = weights fr /\ gradient fr' = gradient fr.
Proof.
  unfold track_average, bind, gets, modify, modify_or_raise, ret, set_self.
  destruct (get (self fr)) as [a|]; simpl.
  - destruct (at_key _ _ _); intros [= <- <-]; done.
  - intros [= <- <-]; done.
Qed.

(** ** Counters *)

Lemma counter_incr (m : gmap (option K) nat) key :
  counter (incr key m) key = (counter m key + 1)%nat.
Proof. unfold counter at 1, incr. by rewrite lookup_insert_eq. Qed.

Lemma counter_incr_ne (m : gmap (option K) nat) key k :
  k <> key -> incr key m !! k = m !! k.
Proof. intros E. unfold incr. by rewrite lookup_insert_ne. Qed.

(** ** [SGD.__call__], statement by statement *)

Lemma SGD_call_unfold key lr_scale (fr : frame SGD) :
  let s := self fr in
  let s1 := SGD_set_nr_update (incr key (SGD_nr_update s)) s in
  let nr_upd := (counter (SGD_nr_update s) key + 1)%nat in
  let g1 := ops_clip_gradient (gradient fr) (SGD_max_grad_norm s) in
  SGD_call key lr_scale fr =
  match SGD_lr s nr_upd with
  | inl e => (inl e, Frame s1 (weights fr) (gradient fr))
  | inr lr =>
      if bool_decide (key = None) || bool_decide (SGD_mu s = 0)
      then
        match isub (smul (lr * lr_scale) g1) (weights fr) with
        | inl e => (inl e, Frame s1 (weights fr) g1)
        | inr w1 =>
            track_average SGD_ops SGD_averages SGD_set_averages key nr_upd
              (Frame s1 w1 (fill0 g1))
        end
      else
        let m0 := setdefault_zeros key (length (weights fr)) (SGD_momentums s) in
        let m1 := <[key := muls (m0 !!! key) (SGD_mu s)]> m0 in
        match iadd (muls g1 (lr * lr_scale)) (m1 !!! key) with
        | inl e => (inl e, Frame (SGD_set_momentums m1 s1) (weights fr) g1)
        | inr mom =>
            let m2 := <[key := mom]> m1 in
            match isub mom (weights fr) with
            | inl e => (inl e, Frame (SGD_set_momentums m2 s1) (weights fr) g1)
            | inr w1 =>
                track_average SGD_ops SGD_averages SGD_set_averages key nr_upd
                  (Frame (SGD_set_momentums m2 s1) w1 (fill0 g1))
            end
        end
  end.
Proof.
  destruct fr as [s w g]. simpl.
  unfold SGD_call, bind at 1, modify at 1. 
  unfold bind at 1, gets at 1. simpl. rewrite counter_incr.
  unfold bind at 1, lift, SGD_lr. simpl.
  destruct (linear_decay _ _ _) as [e|lr]; [done|].
  unfold bind at 1, modify at 1. simpl.
  unfold bind at 1, gets at 1. simpl.
  unfold bind at 1.
  destruct (bool_decide (key = None) || bool_decide (SGD_mu s = 0)).
  - unfold bind at 1, gets at 1. simpl.
    unfold bind at 1, on_weights, modify_or_raise. simpl.
    destruct (isub _ w) as [e|w1]; [done|]. done.
  - unfold bind at 1, gets at 1. simpl.
    unfold bind at 1, modify at 1. simpl.
    unfold bind at 1, SGD_on_momentum at 1, modify_or_raise, at_key. simpl.
    unfold bind at 1, gets at 1. simpl.
    unfold bind at 1, SGD_on_momentum at 1, modify_or_raise, at_key. simpl.
    destruct (iadd _ _) as [e|mom]; [done|].
    unfold bind at 1, gets at 1. simpl.
    rewrite lookup_total_insert_eq.
    unfold bind at 1, on_weights, modify_or_raise. simpl.
    destruct (isub _ w) as [e|w1]; [done|]. done.
Qed.

(** ** The running-average block, statement by statement *)

Lemma track_average_unfold {O} (ops : O -> Ops)
    (get : O -> option (gmap (option K) ndarray)) put key nr_upd (fr : frame O) :
  track_average ops get put key nr_upd fr =
  match get (self fr) with
  | None => (inr tt, fr)
  | Some a =>
      let a1 := setdefault_zeros key (length (weights fr)) a in
      let o1 := put (Some a1) (self fr) in
      match ops_update_averages (ops o1) (weights fr) nr_upd (a1 !!! key) with
      | inr avg => (inr tt, set_self (put (Some (<[key := avg]> a1)) o1) fr)
      | inl e => (inl e, set_self o1 fr)
      end
  end.
Proof.
  destruct fr as [o w g].
  unfold track_average, bind at 1, gets at 1. simpl.
  destruct (get o) as [a|]; [|done].
  unfold bind at 1, gets at 1. simpl.
  unfold bind at 1, modify at 1, modify_or_raise, at_key. simpl.
  by destruct (ops_update_averages _ _ _ _).
Qed.

(** ** [Adam.__call__], statement by statement *)

Lemma Adam_call_unfold lr_scale key (fr : frame Adam) :
  let s := self fr in
  let n := length (weights fr) in
  let s1 :=
    Adam_set_nr_update (incr key (Adam_nr_update s))
      (Adam_set_mom2 (setdefault_zeros key n (Adam_mom2 s))
         (Adam_set_mom1 (setdefault_zeros key n (Adam_mom1 s)) s)) in
  let nr_upd := (counter (Adam_nr_update s) key + 1)%nat in
  Adam_call lr_scale key fr =
  if bool_decide (key = None) then (inl AssertionError, fr)
  else if bool_decide (1 <= length (gradient fr))%nat then
    match iadd (smul (Adam_L2 s) (weights fr)) (gradient fr) with
    | inl e => (inl e, Frame s1 (weights fr) (gradient fr))
    | inr g1 =>
        let g2 := ops_clip_gradient g1 (INR (length g1) / 100) in
        match Adam_lr s nr_upd with
        | inl e => (inl e, Frame s1 (weights fr) g2)
        | inr lr =>
            match ops_adam (weights fr) g2
                    (Adam_mom1 s1 !!! key) (Adam_mom2 s1 !!! key)
                    (Adam_b1 s) (Adam_b1 s) (Adam_eps s) (lr * lr_scale) with
            | inl e => (inl e, Frame s1 (weights fr) g2)
            | inr (w1, m1, m2) =>
                track_average Adam_ops Adam_averages Adam_set_averages key nr_upd
                  (Frame (Adam_set_mom2 (<[key := m2]> (Adam_mom2 s1))
                            (Adam_set_mom1 (<[key := m1]> (Adam_mom1 s1)) s1))
                     w1 (fill0 g2))
            end
        end
    end
  else (inl AssertionError, fr).
Proof.
  destruct fr as [s w g]. simpl.
  unfold Adam_call, bind at 1, assert at 1.
  destruct (bool_decide (key = None)); simpl; [done|].
  unfold bind at 1, gets at 1. simpl.
  unfold bind at 1, assert at 1.
  destruct (bool_decide (1 <= length g)%nat); simpl; [|done].
  unfold bind at 1, gets at 1. simpl.
  unfold bind at 1, modify at 1. simpl.
  unfold bind at 1, modify at 1. simpl.
  unfold bind at 1, modify at 1. simpl.
  unfold bind at 1, gets at 1. simpl. rewrite counter_incr.
  unfold bind at 1, gets at 1. simpl.
  unfold bind at 1, gets at 1. simpl.
  unfold bind at 1, on_gradient, modify_or_raise. simpl.
  destruct (iadd _ g) as [e|g1]; [done|].
  unfold bind at 1, modify at 1. simpl.
  unfold bind at 1, lift. simpl.
  change (Adam_lr _ ?n) with
    (Adam_lr s n).
  destruct (Adam_lr s _) as [e|lr]; [done|].
  unfold bind at 1, gets at 1. simpl.
  unfold bind at 1, gets at 1. simpl.
  unfold bind at 1, gets at 1. simpl.
  unfold bind at 1, Adam_fused_update, modify_or_raise. simpl.
  destruct (ops_adam _ _ _ _ _ _ _ _) as [e|[[w1 m1] m2]]; [done|].
  unfold bind at 1, modify at 1. simpl. done.
Qed.

(** ** The gradient on return *)

Lemma SGD_call_gradient key lr_scale (fr fr' : frame SGD) :
  SGD_call key lr_scale fr = (inr tt, fr') ->
  gradient fr' = replicate (length (gradient fr)) 0.
Proof.
  rewrite SGD_call_unfold. cbv zeta.
  destruct (SGD_lr _ _) as [e|lr]; [done|].
  destruct (_ || _).
  - destruct (isub _ _) as [e|w1]; [done|].
    intros E. apply track_average_arrays in E as [_ ->]. simpl.
    unfold fill0. by rewrite length_ops_clip_gradient.
  - destruct (iadd _ _) as [e|mom]; [done|].
    destruct (isub _ _) as [e|w1]; [done|].
    intros E. apply track_average_arrays in E as [_ ->]. simpl.
    unfold fill0. by rewrite length_ops_clip_gradient.
Qed.





(** ** Which exception *)

Lemma inplace_raises f b a e : inplace f b a = inl e -> e = ValueError.
Proof.
  unfold inplace, broadcast. destruct (decide _); [done|].
  destruct b as [|x [|y b]]; simpl; congruence.
Qed.

Lemma py_div_raises x y e : py_div x y = inl e -> e = ZeroDivisionError.
Proof. unfold py_div. destruct (decide _); congruence. Qed.

Lemma py_div_nonzero x y : y <> 0 -> py_div x y = inr (x / y).
Proof. intros E. unfold py_div. by rewrite decide_False. Qed.

Lemma py_div_zero x : py_div x 0 = inl ZeroDivisionError.
Proof. unfold py_div. by rewrite decide_True. Qed.

Lemma Adam_lr_raises s n e : Adam_lr s n = inl e -> e = ZeroDivisionError.
Proof.
  unfold Adam_lr, linear_decay.
  destruct (py_div _ _) as [e'|alpha] eqn:E; [|done].
  intros [= <-]. by apply py_div_raises in E.
Qed.

Lemma ops_adam_raises w g m1 m2 b1 b2 eps lr e :
  ops_adam w g m1 m2 b1 b2 eps lr = inl e -> e = ValueError.
Proof. unfold ops_adam. destruct (decide _); congruence. Qed.

Lemma track_average_raises {O} (ops : O -> Ops)
    (get : O -> option (gmap (option K) ndarray)) put key nr_upd
    (fr fr' : frame O) e :
  track_average ops get put key nr_upd fr = (inl e, fr') -> e = ValueError.
Proof.
  rewrite track_average_unfold. destruct (get (self fr)); [|done]. cbv zeta.
  unfold ops_update_averages. destruct (decide _); congruence.
Qed.

(** ** The precondition of [Adam.__call__] *)

Lemma Adam_call_asserts lr_scale key (fr : frame Adam) :
  key = None \/ gradient fr = [] ->
  Adam_call lr_scale key fr = (inl AssertionError, fr).
Proof.
  intros Hpre. rewrite Adam_call_unfold. cbv zeta.
  destruct (bool_decide (key = None)) eqn:Ek; [done|].
  destruct Hpre as [-> | ->]; [by rewrite bool_decide_eq_false in Ek|].
  done.
Qed.

Lemma Adam_call_AssertionError lr_scale key (fr : frame Adam) :
  (Adam_call lr_scale key fr).1 = inl AssertionError ->
  key = None \/ gradient fr = [].
Proof.
  rewrite Adam_call_unfold. cbv zeta.
  destruct (bool_decide (key = None)) eqn:Ek.
  { apply bool_decide_eq_true in Ek. by left. }
  destruct (bool_decide (1 <= length (gradient fr))%nat) eqn:Eg.
  2:{ apply bool_decide_eq_false in Eg. right.
      destruct (gradient fr); [done|]. simpl in Eg. lia. }
  destruct (iadd _ _) as [e|g1] eqn:E1.
  { apply inplace_raises in E1 as ->. done. }
  destruct (Adam_lr _ _) as [e|lr] eqn:E2.
  { apply Adam_lr_raises in E2 as ->. done. }
  destruct (ops_adam _ _ _ _ _ _ _ _) as [e|[[w1 m1] m2]] eqn:E3.
  { apply ops_adam_raises in E3 as ->. done. }
  destruct (track_average _ _ _ _ _ _) as [[e|u] fr1] eqn:E4; [|done].
  apply track_average_raises in E4 as ->. done.
Qed.

(** C10.  With the key [None] or the gradient empty, [Adam.__call__]
    raises before it has touched anything: the receiver (counters, moment
    and average buffers), the weights and the gradient are as they were. *)
Theorem Adam_call_fails_unchanged lr_scale key (fr : frame Adam) :
  key = None \/ gradient fr = [] ->
  Adam_call lr_scale key fr = (inl AssertionError, fr).
Proof.
  intros Hpre. rewrite Adam_call_unfold. cbv zeta.
  destruct Hpre as [Hkey | Hgrad].
  - by rewrite (bool_decide_true _ Hkey).
  - destruct (bool_decide (key = None)); [done|].
    by rewrite Hgrad.
Qed.

(** ** The update counters *)

Lemma track_average_keeps {O X : Type} (ops : O -> Ops)
    (get : O -> option (gmap (option K) ndarray)) put (proj : O -> X)
    key nr_upd (fr fr' : frame O) r :
  (forall a o, proj (put a o) = proj o) ->
  track_average ops get put key nr_upd fr = (r, fr') ->
  proj (self fr') = proj (self fr).
Proof.
  intros Hput. rewrite track_average_unfold.
  destruct (get (self fr)); [|by intros [= _ <-]]. cbv zeta.
  destruct (ops_update_averages _ _ _ _); intros [= _ <-]; simpl;
    by rewrite ?Hput.
Qed.

Lemma SGD_call_nr_update key lr_scale (fr fr' : frame SGD) r :
  SGD_call key lr_scale fr = (r, fr') ->
  SGD_nr_update (self fr') = incr key (SGD_nr_update (self fr)).
Proof.
  rewrite SGD_call_unfold. cbv zeta.
  destruct (SGD_lr _ _) as [e|lr]; [by intros [= _ <-]|].
  destruct (_ || _).
  - destruct (isub _ _) as [e|w1]; [by intros [= _ <-]|].
    intros E. by apply (track_average_keeps _ _ _ SGD_nr_update) in E.
  - destruct (iadd _ _) as [e|mom]; [by intros [= _ <-]|].
    destruct (isub _ _) as [e|w1]; [by intros [= _ <-]|].
    intros E. by apply (track_average_keeps _ _ _ SGD_nr_update) in E.
Qed.

Lemma Adam_call_nr_update lr_scale key (fr fr' : frame Adam) r :
  Adam_call lr_scale key fr = (r, fr') ->
  (r = inl AssertionError /\ fr' = fr)
  \/ Adam_nr_update (self fr') = incr key (Adam_nr_update (self fr)).
Proof.
  rewrite Adam_call_unfold. cbv zeta.
  destruct (bool_decide (key = None)); [intros [= <- <-]; by left|].
  destruct (bool_decide _); [|intros [= <- <-]; by left].
  intros E. right. revert E.
  destruct (iadd _ _) as [e|g1]; [by intros [= _ <-]|].
  destruct (Adam_lr _ _) as [e|lr]; [by intros [= _ <-]|].
  destruct (ops_adam _ _ _ _ _ _ _ _) as [e|[[w1 m1] m2]]; [by intros [= _ <-]|].
  intros E. by apply (track_average_keeps _ _ _ Adam_nr_update) in E.
Qed.

Lemma optimizer_call_nr_update key lr_scale (fr fr' : frame optimizer) r :
  optimizer_call key lr_scale fr = (r, fr') ->
  (r <> inr tt /\ fr' = fr)
  \/ optimizer_nr_update (self fr') = incr key (optimizer_nr_update (self fr)).
Proof.
  unfold optimizer_call, with_self. destruct fr as [[s|a] w g]; simpl.
  - destruct (SGD_call _ _ _) as [r1 fr1] eqn:E. intros [= <- <-]. right.
    by apply SGD_call_nr_update in E.
  - destruct (Adam_call _ _ _) as [r1 fr1] eqn:E. intros [= <- <-].
    apply Adam_call_nr_update in E as [[-> ->]|E]; [by left|by right].
Qed.

Lemma update_nr_update key lr_scale (fr fr' : frame instance) r :
  update key lr_scale fr = (r, fr') ->
  (r <> inr tt /\ nr_update (self fr') = nr_update (self fr))
  \/ nr_update (self fr') = incr key (nr_update (self fr)).
Proof.
  unfold update, with_self. destruct fr as [[o|e] w g]; simpl.
  - destruct (optimizer_call _ _ _) as [r1 fr1] eqn:E. intros [= <- <-].
    apply optimizer_call_nr_update in E as [[? ->]|E]; [by left|by right].
  - destruct lr_scale as [x|]; [intros [= <- <-]; by left|].
    unfold Eve_call, with_self. simpl.
    destruct (optimizer_call _ _ _) as [r1 fr1] eqn:E. intros [= <- <-].
    apply optimizer_call_nr_update in E as [[? ->]|E]; [by left|by right].
Qed.

Lemma set_loss_nr_update loss (i : instance) :
  nr_update (set_loss loss i).2 = nr_update i.
Proof.
  destruct i as [[s|a]|e]; simpl; try done.
  unfold Eve_set_loss, bind, gets, modify, lift.
  destruct (Eve_f e) as [old_f|]; simpl; [|done].
  destruct (Eve_get_c _ _ _) as [x|c]; simpl; [done|].
  destruct (py_div _ _); done.
Qed.

Lemma step_nr_update (i : instance) (o : op) :
  nr_update (step i o) = nr_update i
  \/ exists key, op_key o = Some key /\ nr_update (step i o) = incr key (nr_update i).
Proof.
  destruct o as [w g key lr_scale|loss]; simpl.
  - destruct (update key lr_scale (Frame i w g)) as [r fr'] eqn:E.
    apply update_nr_update in E as [[_ E]|E]; simpl in *; eauto.
  - left. apply set_loss_nr_update.
Qed.






(** ** Norms and clipping *)

Lemma sum_squares_nonneg (a : ndarray) :
  0 <= foldr Rplus 0 ((fun x => x * x) <$> a).
Proof.
  induction a as [|x a IH]; [simpl; lra|]. rewrite fmap_cons, foldr_cons.
  pose proof (Rle_0_sqr x) as Hx. unfold Rsqr in Hx. lra.
Qed.

Lemma norm_nonneg a : 0 <= norm a.
Proof. apply sqrt_pos. Qed.

Lemma sum_squares_muls (a : ndarray) c :
  foldr Rplus 0 ((fun x => x * x) <$> muls a c)
  = (c * c) * foldr Rplus 0 ((fun x => x * x) <$> a).
Proof.
  unfold muls. induction a as [|x a IH]; [simpl; lra|].
  rewrite !fmap_cons, !foldr_cons, IH. lra.
Qed.

Lemma norm_muls a c : norm (muls a c) = Rabs c * norm a.
Proof.
  unfold norm. rewrite sum_squares_muls.
  rewrite sqrt_mult; [|apply Rle_0_sqr|apply sum_squares_nonneg].
  f_equal. apply sqrt_Rsqr_abs.
Qed.

Lemma norm_singleton x : norm [x] = Rabs x.
Proof.
  unfold norm. simpl. rewrite Rplus_0_r. apply sqrt_Rsqr_abs.
Qed.

Lemma ops_clip_gradient_under g t : norm g <= t -> ops_clip_gradient g t = g.
Proof.
  intros Hn. unfold ops_clip_gradient. destruct (Rlt_dec t (norm g)); [lra|done].
Qed.

Lemma ops_clip_gradient_over g t :
  t < norm g -> ops_clip_gradient g t = muls g (t / norm g).
Proof.
  intros Hn. unfold ops_clip_gradient. destruct (Rlt_dec t (norm g)); [done|lra].
Qed.

Lemma ops_clip_gradient_norm g t : 0 <= t -> norm (ops_clip_gradient g t) <= t.
Proof.
  intros Ht. unfold ops_clip_gradient.
  destruct (Rlt_dec t (norm g)) as [Hlt|Hge]; [|lra].
  rewrite norm_muls. rewrite Rabs_right.
  - apply Req_le. field. lra.
  - apply Rle_ge. pose proof (norm_nonneg g) as Hg.
    apply Rmult_le_pos; [lra|]. apply Rlt_le, Rinv_0_lt_compat. lra.
Qed.

(** ** Buffers allocated on first use *)

Lemma setdefault_zeros_lookup_total (key : option K) (n : nat) (d : gmap (option K) ndarray) :
  setdefault_zeros key n d !!! key = default (ops_allocate n) (d !! key).
Proof.
  unfold setdefault_zeros. destruct (d !! key) as [a|] eqn:E; simpl.
  - by rewrite lookup_total_alt, E.
  - by rewrite lookup_total_insert_eq.
Qed.

Lemma insert_setdefault_zeros (key : option K) (n : nat) (d : gmap (option K) ndarray) a :
  <[key := a]> (setdefault_zeros key n d) = <[key := a]> d.
Proof.
  unfold setdefault_zeros. destruct (d !! key); [done|].
  by rewrite insert_insert_eq.
Qed.

(** ** The schedule *)

Lemma linear_decay_value rate decay n :
  1 + decay * INR n <> 0 ->
  linear_decay rate decay n = inr (rate / (1 + decay * INR n)).
Proof.
  intros E. unfold linear_decay. rewrite py_div_nonzero by done.
  f_equal. field. done.
Qed.

(** ** The running averages of an SGD *)

Lemma SGD_track_average_inv key nr_upd (fr fr' : frame SGD) :
  track_average SGD_ops SGD_averages SGD_set_averages key nr_upd fr
    = (inr tt, fr') ->
  SGD_averages (self fr')
  = (fun a =>
       <[key := update_averages (SGD_ops (self fr))
                  (default (ops_allocate (length (weights fr))) (a !! key))
                  (weights fr) nr_upd]> a) <$> SGD_averages (self fr)
  /\ SGD_momentums (self fr') = SGD_momentums (self fr).
Proof.
  rewrite track_average_unfold. destruct fr as [s w g]. simpl.
  destruct (SGD_averages s) as [a|] eqn:Ea; [|intros [= <-]; simpl; by rewrite Ea].
  unfold ops_update_averages. destruct (decide _); [|done].
  intros [= <-]. simpl. split; [|done].
  by rewrite insert_setdefault_zeros, setdefault_zeros_lookup_total.
Qed.

Lemma track_average_returns {O} (ops : O -> Ops)
    (get : O -> option (gmap (option K) ndarray)) put key nr_upd (fr : frame O) :
  (forall a avg, get (self fr) = Some a -> a !! key = Some avg ->
                 length avg = length (weights fr)) ->
  (track_average ops get put key nr_upd fr).1 = inr tt.
Proof.
  intros Hlen. rewrite track_average_unfold.
  destruct (get (self fr)) as [a|] eqn:Ea; [|done]. cbv zeta.
  unfold ops_update_averages. rewrite decide_True; [done|].
  rewrite setdefault_zeros_lookup_total.
  destruct (a !! key) as [avg|] eqn:E; simpl; [by eapply Hlen|].
  apply length_replicate.
Qed.

(** ** SGD without momentum *)

(** C7, as the code has it.  With momentum 0, on the first call for a
    key (its counter goes from absent to 1), with [lr_scale] 1, arrays of
    one length and [1 + decay] not zero: the rate is
    [alpha / (1 + decay)] and the weights move by that rate times the
    _clipped_ gradient; they move by the rate times the gradient itself
    when the norm of the gradient is within [max_grad_norm].  The call
    returns when no average buffer of another length is stored under the
    key. *)
Theorem SGD_call_first_update key (fr : frame SGD) :
  SGD_mu (self fr) = 0 ->
  SGD_nr_update (self fr) !! key = None ->
  length (gradient fr) = length (weights fr) ->
  1 + SGD_decay (self fr) <> 0 ->
  let lr1 := SGD_alpha (self fr) / (1 + SGD_decay (self fr)) in
  let g1 := ops_clip_gradient (gradient fr) (SGD_max_grad_norm (self fr)) in
  let fr' := (SGD_call key 1 fr).2 in
  SGD_lr (self fr) 1 = inr lr1
  /\ counter (SGD_nr_update (self fr')) key = 1%nat
  /\ weights fr' = zip_with (fun w g => w - lr1 * g) (weights fr) g1
  /\ (norm (gradient fr) <= SGD_max_grad_norm (self fr) ->
      weights fr' = zip_with (fun w g => w - lr1 * g) (weights fr) (gradient fr))
  /\ ((forall a avg, SGD_averages (self fr) = Some a -> a !! key = Some avg ->
                     length avg = length (weights fr)) ->
      (SGD_call key 1 fr).1 = inr tt).
Proof.
  intros Hmu Hfresh Hlen Hdecay lr1 g1 fr'.
  assert (Hlr : SGD_lr (self fr) 1 = inr lr1).
  { unfold SGD_lr. rewrite linear_decay_value; simpl; rewrite Rmult_1_r; done. }
  assert (Hw : isub (smul (lr1 * 1) g1) (weights fr)
               = inr (zip_with (fun w g => w - lr1 * g) (weights fr) g1)).
  { unfold isub. rewrite inplace_same_length.
    - f_equal. unfold smul. rewrite zip_with_fmap_r.
      apply zip_with_ext; [|done..]. intros w g. lra.
    - rewrite length_smul. unfold g1. by rewrite length_ops_clip_gradient. }
  destruct (SGD_call key 1 fr) as [r fr2] eqn:E. subst fr'. simpl.
  pose proof (SGD_call_nr_update _ _ _ _ _ E) as Hn.
  rewrite SGD_call_unfold in E. cbv zeta in E.
  assert (Hc : counter (SGD_nr_update (self fr)) key = 0%nat)
    by (unfold counter; by rewrite Hfresh).
  rewrite Hc in E. simpl in E. rewrite Hlr in E.
  rewrite (bool_decide_true (SGD_mu (self fr) = 0)), orb_true_r in E by done.
  fold g1 in E. rewrite Hw in E.
  split; [done|]. split; [by rewrite Hn, counter_incr, Hc|].
  pose proof (track_average_arrays _ _ _ _ _ _ _ _ E) as [Hw2 _]. simpl in Hw2.
  split; [done|]. split.
  - intros Hnorm. rewrite Hw2. unfold g1.
    by rewrite ops_clip_gradient_under.
  - intros Havg.
    change r with (r, fr2).1. rewrite <- E.
    apply track_average_returns. simpl. intros a avg Ha Hk.
    unfold g1. rewrite length_zip_with, length_ops_clip_gradient.
    rewrite (Havg a avg Ha Hk). lia.
Qed.

(** ** SGD called without a key *)

(** C4, as the code has it.  A call with the key [None] that returns has
    computed a rate, moved the weights directly by the rate times the
    clipped gradient and left the momentum buffers as they were.  The
    running averages are not skipped for [None]: when they are enabled,
    the map holds an entry under [None] afterwards (allocated by this
    call if there was none) and its other entries are untouched; when
    they are disabled there is still no map. *)
Theorem SGD_call_None_key lr_scale (fr fr' : frame SGD) :
  SGD_call None lr_scale fr = (inr tt, fr') ->
  let s := self fr in
  let nr_upd := (counter (SGD_nr_update s) None + 1)%nat in
  let g1 := ops_clip_gradient (gradient fr) (SGD_max_grad_norm s) in
  SGD_momentums (self fr') = SGD_momentums s
  /\ (exists lr,
        SGD_lr s nr_upd = inr lr
        /\ isub (smul (lr * lr_scale) g1) (weights fr) = inr (weights fr'))
  /\ SGD_averages (self fr')
     = (fun a =>
          <[None := update_averages (SGD_ops s)
                      (default (ops_allocate (length (weights fr'))) (a !! None))
                      (weights fr') nr_upd]> a) <$> SGD_averages s
  /\ (SGD_averages s = None -> SGD_averages (self fr') = None)
  /\ (forall a, SGD_averages s = Some a ->
        exists a', SGD_averages (self fr') = Some a'
                   /\ is_Some (a' !! None)
                   /\ forall k, k <> None -> a' !! k = a !! k).
Proof.
  intros E s nr_upd g1.
  rewrite SGD_call_unfold in E. cbv zeta in E. fold s nr_upd g1 in E.
  destruct (SGD_lr s nr_upd) as [e|lr] eqn:Hlr; [done|].
  rewrite bool_decide_true in E by done. simpl in E.
  destruct (isub _ _) as [e|w1] eqn:Hw; [done|].
  pose proof (track_average_arrays _ _ _ _ _ _ _ _ E) as [Hw1 _].
  apply SGD_track_average_inv in E as [Ha Hm]. simpl in *. subst w1.
  assert (Hs : SGD_averages (self fr')
     = (fun a =>
          <[None := update_averages (SGD_ops s)
                      (default (ops_allocate (length (weights fr'))) (a !! None))
                      (weights fr') nr_upd]> a) <$> SGD_averages s) by exact Ha.
  split; [done|]. split; [by exists lr|]. split; [done|]. split.
  - intros Hnone. by rewrite Hs, Hnone.
  - intros a Hsome. rewrite Hs, Hsome. simpl. eexists. split; [done|]. split.
    + rewrite lookup_insert_eq. by eexists.
    + intros k Hk. by rewrite lookup_insert_ne.
Qed.

(** ** What a returning [Adam.__call__] has done *)

Lemma ops_adam_inv w g m1 m2 b1 b2 eps lr w' m1' m2' :
  ops_adam w g m1 m2 b1 b2 eps lr = inr (w', m1', m2') ->
  length g = length w /\ length m1 = length w /\ length m2 = length w
  /\ m1' = adam_mom1 b1 m1 g
  /\ m2' = adam_mom2 b2 m2 g
  /\ w' = adam_weights eps lr w m1' m2'.
Proof.
  unfold ops_adam. destruct (decide _) as [(?&?&?)|]; [|done].
  intros [= <- <- <-]. done.
Qed.

Lemma Adam_call_inv lr_scale key (fr fr' : frame Adam) :
  Adam_call lr_scale key fr = (inr tt, fr') ->
  let s := self fr in
  let n := length (weights fr) in
  let nr_upd := (counter (Adam_nr_update s) key + 1)%nat in
  let m1 := default (ops_allocate n) (Adam_mom1 s !! key) in
  let m2 := default (ops_allocate n) (Adam_mom2 s !! key) in
  exists g1 lr,
    key <> None /\ gradient fr <> []
    /\ iadd (smul (Adam_L2 s) (weights fr)) (gradient fr) = inr g1
    /\ Adam_lr s nr_upd = inr lr
    /\ let g2 := ops_clip_gradient g1 (INR (length g1) / 100) in
       ops_adam (weights fr) g2 m1 m2
                (Adam_b1 s) (Adam_b1 s) (Adam_eps s) (lr * lr_scale)
       = inr (weights fr', adam_mom1 (Adam_b1 s) m1 g2, adam_mom2 (Adam_b1 s) m2 g2)
       /\ Adam_mom1 (self fr') = <[key := adam_mom1 (Adam_b1 s) m1 g2]> (Adam_mom1 s)
       /\ Adam_mom2 (self fr') = <[key := adam_mom2 (Adam_b1 s) m2 g2]> (Adam_mom2 s).
Proof.
  intros E s n nr_upd m1 m2.
  rewrite Adam_call_unfold in E. cbv zeta in E. fold s n nr_upd in E.
  destruct (bool_decide (key = None)) eqn:Ek; [done|].
  apply bool_decide_eq_false in Ek.
  destruct (bool_decide (1 <= length (gradient fr))%nat) eqn:Eg; [|done].
  apply bool_decide_eq_true in Eg.
  destruct (iadd _ _) as [e|g1] eqn:E1; [done|].
  destruct (Adam_lr s nr_upd) as [e|lr] eqn:E2; [done|].
  simpl in E. rewrite !setdefault_zeros_lookup_total in E. fold m1 m2 in E.
  destruct (ops_adam _ _ _ _ _ _ _ _) as [e|[[w1 m1'] m2']] eqn:E3; [done|].
  pose proof (track_average_arrays _ _ _ _ _ _ _ _ E) as [Hw _].
  pose proof (track_average_keeps Adam_ops Adam_averages Adam_set_averages
                Adam_mom1 _ _ _ _ _ (fun _ _ => eq_refl) E)
    as Hm1.
  pose proof (track_average_keeps Adam_ops Adam_averages Adam_set_averages
                Adam_mom2 _ _ _ _ _ (fun _ _ => eq_refl) E)
    as Hm2.
  simpl in Hw, Hm1, Hm2. rewrite insert_setdefault_zeros in Hm1, Hm2.
  pose proof (ops_adam_inv _ _ _ _ _ _ _ _ _ _ _ E3) as (_ & _ & _ & -> & -> & _).
  exists g1, lr. split; [done|]. split.
  { intros Hnil. rewrite Hnil in Eg. simpl in Eg. lia. }
  split; [done|]. split; [done|]. cbv zeta.
  split; [by rewrite Hw|]. done.
Qed.

(** ** When [Adam.__call__] returns *)

Lemma length_adam_mom1 b m g : length m = length g -> length (adam_mom1 b m g) = length g.
Proof. intros E. unfold adam_mom1. rewrite length_zip_with. lia. Qed.

Lemma length_adam_mom2 b m g : length m = length g -> length (adam_mom2 b m g) = length g.
Proof. intros E. unfold adam_mom2. rewrite length_zip_with. lia. Qed.

Lemma length_adam_weights eps lr w m1 m2 :
  length m1 = length w -> length m2 = length w ->
  length (adam_weights eps lr w m1 m2) = length w.
Proof.
  intros E1 E2. unfold adam_weights. rewrite length_zip_with, length_zip. lia.
Qed.

Lemma Adam_lr_value s n :
  1 + Adam_decay s * INR n <> 0 ->
  Adam_lr s n
  = inr (Adam_alpha s / (1 + Adam_decay s * INR n)
         * sqrt (1 - Adam_b2 s ^ n) / (1 - Adam_b1 s ^ n)).
Proof. intros E. unfold Adam_lr. by rewrite linear_decay_value. Qed.

Lemma Adam_call_returns lr_scale key (fr : frame Adam) :
  let s := self fr in
  let n := length (weights fr) in
  key <> None -> gradient fr <> [] ->
  length (gradient fr) = n ->
  (forall m, Adam_mom1 s !! key = Some m -> length m = n) ->
  (forall m, Adam_mom2 s !! key = Some m -> length m = n) ->
  (forall a avg, Adam_averages s = Some a -> a !! key = Some avg ->
                 length avg = n) ->
  1 + Adam_decay s * INR (counter (Adam_nr_update s) key + 1) <> 0 ->
  (Adam_call lr_scale key fr).1 = inr tt.
Proof.
  intros s n Hkey Hg Hlen Hm1 Hm2 Havg Hdecay.
  rewrite Adam_call_unfold. cbv zeta. fold s n.
  rewrite bool_decide_false by done.
  rewrite bool_decide_true by (destruct (gradient fr); simpl; [done|lia]).
  unfold iadd. rewrite inplace_same_length by (by rewrite length_smul).
  rewrite Adam_lr_value by done.
  set (g2 := ops_clip_gradient _ _).
  assert (Hg2 : length g2 = n).
  { unfold g2. rewrite length_ops_clip_gradient, length_zip_with, length_smul.
    fold n. lia. }
  simpl. rewrite !setdefault_zeros_lookup_total. fold n.
  set (m1 := default _ (Adam_mom1 s !! key)).
  set (m2 := default _ (Adam_mom2 s !! key)).
  assert (Hl1 : length m1 = n).
  { unfold m1. destruct (Adam_mom1 s !! key) as [m|] eqn:E; simpl;
      [by apply Hm1|apply length_replicate]. }
  assert (Hl2 : length m2 = n).
  { unfold m2. destruct (Adam_mom2 s !! key) as [m|] eqn:E; simpl;
      [by apply Hm2|apply length_replicate]. }
  unfold ops_adam. rewrite decide_True by done.
  apply track_average_returns. simpl. intros a avg Ha Hk.
  rewrite length_adam_weights.
  - by eapply Havg.
  - rewrite length_adam_mom1; lia.
  - rewrite length_adam_mom2; lia.
Qed.

(** ** The precondition failure of [Adam.__call__], and no other *)

(** C5.  For arrays of equal length, [Adam.__call__] ends in the failure
    of its precondition ([AssertionError]) exactly when the key is
    [None] or the gradient is empty; the failure is the outcome of the
    call itself, raised with the frame still as it was received.  With a
    key and a gradient that is not empty the call returns, provided the
    buffers already stored under the key have the length of the weights
    and the decayed rate is defined. *)
Theorem Adam_call_fails_iff lr_scale key (fr : frame Adam) :
  length (weights fr) = length (gradient fr) ->
  ((Adam_call lr_scale key fr).1 = inl AssertionError
     <-> key = None \/ gradient fr = [])
  /\ ((Adam_call lr_scale key fr).1 = inl AssertionError ->
      Adam_call lr_scale key fr = (inl AssertionError, fr))
  /\ (key <> None -> gradient fr <> [] ->
      (forall m, Adam_mom1 (self fr) !! key = Some m ->
                 length m = length (weights fr)) ->
      (forall m, Adam_mom2 (self fr) !! key = Some m ->
                 length m = length (weights fr)) ->
      (forall a avg, Adam_averages (self fr) = Some a -> a !! key = Some avg ->
                     length avg = length (weights fr)) ->
      1 + Adam_decay (self fr)
          * INR (counter (Adam_nr_update (self fr)) key + 1) <> 0 ->
      (Adam_call lr_scale key fr).1 = inr tt).
Proof.
  intros Hlen. split; [split|split].
  - apply Adam_call_AssertionError.
  - intros Hpre. by rewrite Adam_call_asserts.
  - intros E. apply Adam_call_asserts. by apply Adam_call_AssertionError in E.
  - intros Hkey Hg Hm1 Hm2 Havg Hdecay. by apply Adam_call_returns.
Qed.

(** ** The order of the steps of [Adam.__call__] *)

(** C8.  In a call that returns, on arrays of one length, the gradient
    handed to the fused update is the incoming gradient with
    [L2 * weights] added elementwise and, after that, clipped with the
    ceiling [len(gradient) / 100]: its norm is within the ceiling, and the
    weights (and both moment buffers) on return are those the fused update
    computes from it. *)
Theorem Adam_call_L2_then_clip lr_scale key (fr fr' : frame Adam) :
  Adam_call lr_scale key fr = (inr tt, fr') ->
  length (gradient fr) = length (weights fr) ->
  let s := self fr in
  let ceiling := INR (length (gradient fr)) / 100 in
  let g1 := zip_with (fun g w => g + Adam_L2 s * w) (gradient fr) (weights fr) in
  let g2 := ops_clip_gradient g1 ceiling in
  let m1 := default (ops_allocate (length (weights fr))) (Adam_mom1 s !! key) in
  let m2 := default (ops_allocate (length (weights fr))) (Adam_mom2 s !! key) in
  norm g2 <= ceiling
  /\ (norm g1 <= ceiling -> g2 = g1)
  /\ exists lr,
       Adam_lr s (counter (Adam_nr_update s) key + 1) = inr lr
       /\ ops_adam (weights fr) g2 m1 m2
                   (Adam_b1 s) (Adam_b1 s) (Adam_eps s) (lr * lr_scale)
          = inr (weights fr', Adam_mom1 (self fr') !!! key,
                 Adam_mom2 (self fr') !!! key).
Proof.
  intros E Hlen s ceiling g1 g2 m1 m2.
  split; [|split].
  - apply ops_clip_gradient_norm. unfold ceiling.
    pose proof (pos_INR (length (gradient fr))). lra.
  - apply ops_clip_gradient_under.
  - apply Adam_call_inv in E as (g1' & lr & _ & _ & E1 & E2 & E3 & Em1 & Em2).
    unfold iadd in E1. rewrite inplace_same_length in E1
      by (by rewrite length_smul).
    injection E1 as <-.
    assert (Hg1 : zip_with Rplus (gradient fr) (smul (Adam_L2 (self fr)) (weights fr))
                  = g1).
    { unfold smul, g1. rewrite zip_with_fmap_r. done. }
    rewrite Hg1 in E3, Em1, Em2.
    assert (Hl : length g1 = length (gradient fr)).
    { unfold g1. rewrite length_zip_with. lia. }
    rewrite Hl in E3, Em1, Em2. fold ceiling in E3, Em1, Em2. fold g2 in E3, Em1, Em2.
    exists lr. split; [done|].
    fold s in Em1, Em2. rewrite Em1, Em2, !lookup_total_insert_eq. exact E3.
Qed.

(** ** The rate of [Adam] *)



(** ** Eve *)

Lemma Rmin_Rmax_pinned delta q : Rmin (Rmax delta q) delta = delta.
Proof. apply Rmin_right. apply Rmax_l. Qed.

Lemma Eve_get_c_improved e loss old_f :
  loss < old_f -> old_f <> 0 ->
  Eve_get_c e loss old_f = inr (Eve_lower_threshold e + 1).
Proof.
  intros Hlt Hf. unfold Eve_get_c. destruct (Rlt_dec loss old_f); [|lra].
  rewrite py_div_nonzero by done. by rewrite Rmin_Rmax_pinned.
Qed.

Lemma Eve_get_c_worsened e loss old_f :
  old_f <= loss -> old_f <> 0 ->
  Eve_upper_threshold e + 1 <> 0 -> Eve_lower_threshold e + 1 <> 0 ->
  Eve_get_c e loss old_f = inr (1 / (Eve_upper_threshold e + 1)).
Proof.
  intros Hge Hf Hu Hl. unfold Eve_get_c. destruct (Rlt_dec loss old_f); [lra|].
  rewrite !py_div_nonzero by done. by rewrite Rmin_Rmax_pinned.
Qed.

Lemma Eve_get_c_zero_baseline e loss : Eve_get_c e loss 0 = inl ZeroDivisionError.
Proof.
  unfold Eve_get_c.
  destruct (Rlt_dec loss 0); [by rewrite py_div_zero|].
  destruct (py_div 1 (Eve_upper_threshold e + 1)) as [x|delta] eqn:E1.
  { by apply py_div_raises in E1 as ->. }
  destruct (py_div 1 (Eve_lower_threshold e + 1)) as [x|Delta] eqn:E2.
  { by apply py_div_raises in E2 as ->. }
  by rewrite py_div_zero.
Qed.

(** C3, as the code has it.  With a baseline [f] already stored and
    thresholds whose successors are not zero (the constructor's 0.1 and
    10 are such), let [c] be [lower_threshold + 1] when [loss < f] and
    [1 / (upper_threshold + 1)] otherwise, [new_f = c * loss] and
    [r = |new_f - f| / min(new_f, f)].  When neither [f] nor
    [min(new_f, f)] is zero, [c] is the clamp factor [_get_c] returns (the
    other reciprocal is computed and not used) and [set_loss] stores
    [d + (1 - b3) * (r - d)] and [new_f].  When [f] is zero, or
    [min(new_f, f)] is zero, [set_loss] raises [ZeroDivisionError] and
    leaves [d] and the baseline, with the rest of the wrapper, as they
    were. *)
Theorem Eve_set_loss_rescales (e : Eve) (loss old_f : R) :
  Eve_f e = Some old_f ->
  Eve_upper_threshold e + 1 <> 0 ->
  Eve_lower_threshold e + 1 <> 0 ->
  let c := if Rlt_dec loss old_f
           then Eve_lower_threshold e + 1
           else 1 / (Eve_upper_threshold e + 1) in
  let new_f := c * loss in
  let r := Rabs (new_f - old_f) / Rmin new_f old_f in
  (old_f <> 0 -> Rmin new_f old_f <> 0 ->
   Eve_get_c e loss old_f = inr c
   /\ Eve_set_loss loss e
      = (inr tt,
         Eve_set_f (Some new_f)
           (Eve_set_d (Eve_d e + (1 - Eve_b3 e) * (r - Eve_d e)) e)))
  /\ (old_f = 0 \/ Rmin new_f old_f = 0 ->
      Eve_set_loss loss e = (inl ZeroDivisionError, e)).
Proof.
  intros Hf Hu Hl c new_f r.
  assert (Hc : old_f <> 0 -> Eve_get_c e loss old_f = inr c).
  { intros Hf0. unfold c. destruct (Rlt_dec loss old_f) as [Hlt|Hge].
    - by apply Eve_get_c_improved.
    - apply Eve_get_c_worsened; [lra|done..]. }
  split.
  - intros Hf0 Hmin. split; [by apply Hc|].
    unfold Eve_set_loss, bind at 1, gets at 1. rewrite Hf.
    unfold bind at 1, gets at 1.
    unfold bind at 1, lift at 1. rewrite Hc by done.
    unfold bind at 1, lift at 1. fold new_f. rewrite py_div_nonzero by done.
    fold r. done.
  - intros Hzero.
    unfold Eve_set_loss, bind at 1, gets at 1. rewrite Hf.
    unfold bind at 1, gets at 1.
    unfold bind at 1, lift at 1.
    destruct (decide (old_f = 0)) as [Hf0|Hf0].
    + rewrite Hf0. by rewrite Eve_get_c_zero_baseline.
    + destruct Hzero as [Hz|Hz]; [done|].
      rewrite Hc by done.
      unfold bind at 1, lift at 1. fold new_f. rewrite Hz.
      by rewrite py_div_zero.
Qed.

(** ** When [SGD.__call__] returns, and where it leaves the weights *)

Lemma SGD_call_returns key lr_scale (fr : frame SGD) :
  let s := self fr in
  let n := length (weights fr) in
  length (gradient fr) = n ->
  (forall m, SGD_momentums s !! key = Some m -> length m = n) ->
  (forall a avg, SGD_averages s = Some a -> a !! key = Some avg ->
                 length avg = n) ->
  1 + SGD_decay s * INR (counter (SGD_nr_update s) key + 1) <> 0 ->
  (SGD_call key lr_scale fr).1 = inr tt.
Proof.
  intros s n Hlen Hm Havg Hdecay.
  rewrite SGD_call_unfold. cbv zeta. fold s n.
  unfold SGD_lr. rewrite linear_decay_value by done.
  set (lr := _ / _ * lr_scale).
  set (g1 := ops_clip_gradient _ _).
  assert (Hg1 : length g1 = n) by (unfold g1; by rewrite length_ops_clip_gradient).
  destruct (_ || _).
  - unfold isub. rewrite inplace_same_length by (by rewrite length_smul).
    apply track_average_returns. simpl. intros a avg Ha Hk.
    rewrite length_zip_with, length_smul, Hg1. fold n.
    rewrite (Havg a avg Ha Hk). lia.
  - rewrite lookup_total_insert_eq, setdefault_zeros_lookup_total.
    set (m := default _ (SGD_momentums s !! key)).
    assert (Hlm : length m = n).
    { unfold m. destruct (SGD_momentums s !! key) as [m'|] eqn:E; simpl;
        [by apply Hm|apply length_replicate]. }
    unfold iadd, isub.
    rewrite inplace_same_length by (by rewrite !length_muls, Hg1, Hlm).
    rewrite inplace_same_length
      by (rewrite length_zip_with, !length_muls, Hg1, Hlm; fold n; lia).
    apply track_average_returns. simpl. intros a avg Ha Hk.
    rewrite !length_zip_with, !length_muls, Hg1, Hlm. fold n.
    rewrite (Havg a avg Ha Hk). lia.
Qed.

Lemma SGD_call_direct_weights key lr_scale (fr : frame SGD) lr :
  key = None \/ SGD_mu (self fr) = 0 ->
  length (gradient fr) = length (weights fr) ->
  SGD_lr (self fr) (counter (SGD_nr_update (self fr)) key + 1) = inr lr ->
  weights (SGD_call key lr_scale fr).2
  = zip_with (fun w g => w - lr * lr_scale * g) (weights fr)
      (ops_clip_gradient (gradient fr) (SGD_max_grad_norm (self fr))).
Proof.
  intros Hdirect Hlen Hlr.
  rewrite SGD_call_unfold. cbv zeta. rewrite Hlr.
  assert (Hb : bool_decide (key = None) || bool_decide (SGD_mu (self fr) = 0) = true).
  { destruct Hdirect as [Hk|Hmu].
    - by rewrite (bool_decide_true _ Hk).
    - by rewrite (bool_decide_true _ Hmu), orb_true_r. }
  rewrite Hb. unfold isub.
  rewrite inplace_same_length
    by (by rewrite length_smul, length_ops_clip_gradient).
  destruct (track_average _ _ _ _ _ _) as [r fr2] eqn:E.
  apply track_average_arrays in E as [E _]. simpl in *. rewrite E.
  unfold smul. by rewrite zip_with_fmap_r.
Qed.

(** * Further properties of the code *)

(** ** The schedule of [linear_decay] and [SGD.lr] *)

(** X1.  With a rate and a decay that are not negative, [linear_decay]
    (and so [SGD.lr]) never raises, stays between 0 and the base rate,
    does not grow as updates accumulate, and is the base rate itself when
    the decay is 0. *)
Theorem linear_decay_schedule rate decay (n m : nat) :
  0 <= rate -> 0 <= decay -> (n <= m)%nat ->
  exists r_n r_m,
    linear_decay rate decay n = inr r_n
    /\ linear_decay rate decay m = inr r_m
    /\ 0 <= r_m /\ r_m <= r_n /\ r_n <= rate
    /\ (decay = 0 -> r_n = rate).
Proof.
  intros Hrate Hdecay Hnm.
  pose proof (pos_INR n) as Hn. pose proof (le_INR n m Hnm) as Hle.
  assert (Ha : 1 <= 1 + decay * INR n) by nra.
  assert (Hb : 1 + decay * INR n <= 1 + decay * INR m) by nra.
  exists (rate / (1 + decay * INR n)), (rate / (1 + decay * INR m)).
  rewrite !linear_decay_value by lra.
  split; [done|]. split; [done|].
  assert (Hia : / (1 + decay * INR n) <= 1).
  { rewrite <- Rinv_1. apply Rinv_le_contravar; lra. }
  assert (Hib : / (1 + decay * INR m) <= / (1 + decay * INR n)).
  { apply Rinv_le_contravar; lra. }
  assert (Hpb : 0 < / (1 + decay * INR m)) by (apply Rinv_0_lt_compat; lra).
  unfold Rdiv. split; [nra|]. split; [nra|]. split; [nra|].
  intros ->. rewrite Rmult_0_l, Rplus_0_r, Rinv_1. lra.
Qed.

(** ** Calls that raise part of the way *)

(** X2.  [SGD.__call__] ends in [ZeroDivisionError] exactly when
    [1 + decay * nr_upd] is 0 for the incremented counter; the weights and
    the gradient are then untouched, but the counter of the key stays
    incremented. *)
Theorem SGD_call_ZeroDivisionError key lr_scale (fr : frame SGD) :
  let s := self fr in
  ((SGD_call key lr_scale fr).1 = inl ZeroDivisionError
   <-> 1 + SGD_decay s * INR (counter (SGD_nr_update s) key + 1) = 0)
  /\ ((SGD_call key lr_scale fr).1 = inl ZeroDivisionError ->
      (SGD_call key lr_scale fr).2
      = Frame (SGD_set_nr_update (incr key (SGD_nr_update s)) s)
              (weights fr) (gradient fr)).
Proof.
  intros s. rewrite SGD_call_unfold. cbv zeta. fold s.
  unfold SGD_lr, linear_decay, py_div.
  destruct (decide (1 + SGD_decay s * INR (counter (SGD_nr_update s) key + 1) = 0))
    as [Hz|Hnz]; [done|].
  destruct (_ || _).
  - destruct (isub _ _) as [e|w1] eqn:E1.
    { apply inplace_raises in E1 as ->. split; [split|]; done. }
    destruct (track_average _ _ _ _ _ _) as [[e|u] fr2] eqn:E2.
    { apply track_average_raises in E2 as ->. split; [split|]; done. }
    split; [split|]; done.
  - destruct (iadd _ _) as [e|mom] eqn:E1.
    { apply inplace_raises in E1 as ->. split; [split|]; done. }
    destruct (isub _ _) as [e|w1] eqn:E2.
    { apply inplace_raises in E2 as ->. split; [split|]; done. }
    destruct (track_average _ _ _ _ _ _) as [[e|u] fr2] eqn:E3.
    { apply track_average_raises in E3 as ->. split; [split|]; done. }
    split; [split|]; done.
Qed.

(** X3.  Past its two assertions [Adam.__call__] is not atomic: when the
    decayed rate cannot be computed ([1 + decay * nr_upd = 0]) the call
    raises [ZeroDivisionError] with the weights untouched, but with both
    moment buffers allocated, the counter incremented, and the gradient
    already regularized and clipped, not zeroed. *)
Theorem Adam_call_raises_midway lr_scale key (fr : frame Adam) :
  let s := self fr in
  let n := length (weights fr) in
  key <> None -> gradient fr <> [] ->
  length (gradient fr) = n ->
  1 + Adam_decay s * INR (counter (Adam_nr_update s) key + 1) = 0 ->
  let fr' := (Adam_call lr_scale key fr).2 in
  (Adam_call lr_scale key fr).1 = inl ZeroDivisionError
  /\ weights fr' = weights fr
  /\ gradient fr'
     = ops_clip_gradient
         (zip_with (fun g w => g + Adam_L2 s * w) (gradient fr) (weights fr))
         (INR (length (gradient fr)) / 100)
  /\ Adam_nr_update (self fr') = incr key (Adam_nr_update s)
  /\ Adam_mom1 (self fr') = setdefault_zeros key n (Adam_mom1 s)
  /\ Adam_mom2 (self fr') = setdefault_zeros key n (Adam_mom2 s).
Proof.
  intros s n Hkey Hg Hlen Hz fr'. subst fr'.
  rewrite Adam_call_unfold. cbv zeta. fold s n.
  rewrite bool_decide_false by done.
  rewrite bool_decide_true by (destruct (gradient fr); simpl; [done|lia]).
  unfold iadd. rewrite inplace_same_length by (by rewrite length_smul).
  unfold Adam_lr, linear_decay. rewrite Hz, py_div_zero. simpl.
  split; [done|]. split; [done|]. split; [|done].
  rewrite length_zip_with, length_smul. fold n. rewrite Hlen, Nat.min_id.
  unfold smul. by rewrite zip_with_fmap_r.
Qed.

(** ** SGD with momentum *)

Lemma SGD_call_momentum_inv key lr_scale (fr fr' : frame SGD) :
  let s := self fr in
  let n := length (weights fr) in
  let g1 := ops_clip_gradient (gradient fr) (SGD_max_grad_norm s) in
  let m0 := default (ops_allocate n) (SGD_momentums s !! key) in
  SGD_call key lr_scale fr = (inr tt, fr') ->
  key <> None -> SGD_mu s <> 0 ->
  length (gradient fr) = n -> length m0 = n ->
  exists lr,
    SGD_lr s (counter (SGD_nr_update s) key + 1) = inr lr
    /\ let m' := zip_with (fun m g => m * SGD_mu s + g * (lr * lr_scale)) m0 g1 in
       SGD_momentums (self fr') = <[key := m']> (SGD_momentums s)
       /\ weights fr' = zip_with Rminus (weights fr) m'.
Proof.
  intros s n g1 m0 E Hkey Hmu Hlen Hm0.
  rewrite SGD_call_unfold in E. cbv zeta in E. fold s n g1 in E.
  destruct (SGD_lr s _) as [e|lr] eqn:Hlr; [done|].
  rewrite (bool_decide_false (key = None)), (bool_decide_false (SGD_mu s = 0)) in E
    by done.
  simpl in E. rewrite lookup_total_insert_eq, setdefault_zeros_lookup_total in E.
  fold m0 in E.
  assert (Hg1 : length g1 = n) by (unfold g1; by rewrite length_ops_clip_gradient).
  unfold iadd, isub in E.
  rewrite inplace_same_length in E by (by rewrite !length_muls, Hg1, Hm0).
  rewrite inplace_same_length in E
    by (rewrite length_zip_with, !length_muls, Hg1, Hm0; fold n; lia).
  pose proof (track_average_arrays _ _ _ _ _ _ _ _ E) as [Hw _].
  pose proof (track_average_keeps SGD_ops SGD_averages SGD_set_averages
                SGD_momentums _ _ _ _ _ (fun _ _ => eq_refl) E) as Hm.
  simpl in Hw, Hm. rewrite insert_insert_eq, insert_setdefault_zeros in Hm.
  assert (Hz : zip_with Rplus (muls m0 (SGD_mu s)) (muls g1 (lr * lr_scale))
               = zip_with (fun m g => m * SGD_mu s + g * (lr * lr_scale)) m0 g1).
  { unfold muls. by rewrite zip_with_fmap_l, zip_with_fmap_r. }
  rewrite Hz in Hw, Hm. exists lr. split; [done|]. by split.
Qed.

(** X4.  The momentum branch of [SGD.__call__]: with a key, a momentum
    coefficient that is not 0 and arrays of the length of the stored
    buffer, a call that returns replaces the buffer of the key by
    [momentum * mu + gradient * lr], on the clipped gradient and with the
    scaled rate, and subtracts exactly that from the weights. *)
Theorem SGD_call_momentum_step key lr_scale (fr fr' : frame SGD) :
  let s := self fr in
  let n := length (weights fr) in
  let g1 := ops_clip_gradient (gradient fr) (SGD_max_grad_norm s) in
  let m0 := default (ops_allocate n) (SGD_momentums s !! key) in
  SGD_call key lr_scale fr = (inr tt, fr') ->
  key <> None -> SGD_mu s <> 0 ->
  length (gradient fr) = n -> length m0 = n ->
  exists lr,
    SGD_lr s (counter (SGD_nr_update s) key + 1) = inr lr
    /\ let m' := zip_with (fun m g => m * SGD_mu s + g * (lr * lr_scale)) m0 g1 in
       SGD_momentums (self fr') = <[key := m']> (SGD_momentums s)
       /\ weights fr' = zip_with Rminus (weights fr) m'
       /\ forall k, k <> key -> SGD_momentums (self fr') !! k = SGD_momentums s !! k.
Proof.
  intros s n g1 m0 E Hkey Hmu Hlen Hm0.
  destruct (SGD_call_momentum_inv key lr_scale fr fr' E Hkey Hmu Hlen Hm0)
    as (lr & Hlr & Hm & Hw).
  exists lr. split; [done|]. cbv zeta. split; [done|]. split; [done|].
  intros k Hk. rewrite Hm. by rewrite lookup_insert_ne.
Qed.

Lemma zip_with_zeros_l (f : R -> R -> R) (g : ndarray) n c :
  length g = n -> (forall x, f 0 x = c * x) ->
  zip_with f (replicate n 0) g = smul c g.
Proof.
  intros <- Hf. unfold smul. induction g as [|x g IH]; simpl; [done|].
  by rewrite Hf, IH.
Qed.

(** X5.  The first update of a key does not depend on the momentum
    coefficient: while no momentum buffer is stored under the key, the
    weights move by the scaled rate times the clipped gradient, in the
    momentum branch as in the direct one. *)
Theorem SGD_call_first_step_ignores_momentum key lr_scale (fr : frame SGD) lr :
  let s := self fr in
  SGD_momentums s !! key = None ->
  length (gradient fr) = length (weights fr) ->
  SGD_lr s (counter (SGD_nr_update s) key + 1) = inr lr ->
  weights (SGD_call key lr_scale fr).2
  = zip_with (fun w g => w - lr * lr_scale * g) (weights fr)
      (ops_clip_gradient (gradient fr) (SGD_max_grad_norm s)).
Proof.
  intros s Hfresh Hlen Hlr.
  destruct (decide (key = None \/ SGD_mu s = 0)) as [Hdirect|Hmom].
  { by apply SGD_call_direct_weights. }
  rewrite SGD_call_unfold. cbv zeta. fold s. rewrite Hlr.
  assert (Hb : bool_decide (key = None) || bool_decide (SGD_mu s = 0) = false).
  { apply orb_false_intro; apply bool_decide_eq_false; tauto. }
  rewrite Hb, lookup_total_insert_eq, setdefault_zeros_lookup_total, Hfresh.
  simpl. set (g1 := ops_clip_gradient _ _).
  assert (Hg1 : length g1 = length (weights fr))
    by (unfold g1; by rewrite length_ops_clip_gradient).
  unfold iadd, isub, ops_allocate.
  rewrite inplace_same_length
    by (by rewrite !length_muls, Hg1, length_replicate).
  rewrite inplace_same_length
    by (rewrite length_zip_with, !length_muls, Hg1, length_replicate; lia).
  destruct (track_average _ _ _ _ _ _) as [r fr2] eqn:E.
  apply track_average_arrays in E as [E _]. simpl in *. rewrite E.
  assert (Hm : zip_with Rplus (muls (replicate (length (weights fr)) 0) (SGD_mu s))
                 (muls g1 (lr * lr_scale)) = smul (lr * lr_scale) g1).
  { unfold muls. rewrite zip_with_fmap_l, zip_with_fmap_r.
    apply zip_with_zeros_l; [done|]. intros x. lra. }
  rewrite Hm. unfold smul. by rewrite zip_with_fmap_r.
Qed.

(** ** A call on a gradient that is already zero *)

Lemma ops_clip_gradient_zeros n t :
  ops_clip_gradient (replicate n 0) t = replicate n 0.
Proof.
  unfold ops_clip_gradient. destruct (Rlt_dec _ _); [|done].
  unfold muls. rewrite fmap_replicate. f_equal. lra.
Qed.

Lemma zip_with_sub_zeros (w : ndarray) c :
  zip_with (fun x g => x - c * g) w (replicate (length w) 0) = w.
Proof.
  induction w as [|x w IH]; simpl; [done|]. rewrite IH. f_equal. lra.
Qed.


(** ** What a call does to the dictionaries *)

Lemma setdefault_zeros_ne (key : option K) (n : nat)
    (d : gmap (option K) ndarray) k :
  k <> key -> setdefault_zeros key n d !! k = d !! k.
Proof.
  intros E. unfold setdefault_zeros. destruct (d !! key); [done|].
  by rewrite lookup_insert_ne.
Qed.

Lemma setdefault_zeros_insert (key : option K) (n : nat)
    (d : gmap (option K) ndarray) :
  setdefault_zeros key n d
  = <[key := default (ops_allocate n) (d !! key)]> d.
Proof.
  unfold setdefault_zeros. destruct (d !! key) as [a|] eqn:E; simpl; [|done].
  by rewrite insert_id.
Qed.

(** The averages after the block, whatever its outcome. *)
Lemma track_average_get {O} (ops : O -> Ops)
    (get : O -> option (gmap (option K) ndarray)) put key nr_upd
    (fr fr' : frame O) r :
  (forall a o, get (put a o) = a) ->
  track_average ops get put key nr_upd fr = (r, fr') ->
  match get (self fr) with
  | None => get (self fr') = None
  | Some a => exists avg, get (self fr') = Some (<[key := avg]> a)
  end.
Proof.
  intros Hgp. rewrite track_average_unfold.
  destruct (get (self fr)) as [a|] eqn:Ea.
  - cbv zeta. destruct (ops_update_averages _ _ _ _) as [e|avg];
      intros [= _ <-]; simpl; rewrite !Hgp.
    + eexists. by rewrite setdefault_zeros_insert.
    + eexists. by rewrite insert_setdefault_zeros.
  - by intros [= _ <-].
Qed.

(** The momentum buffers after [SGD.__call__], whatever its outcome. *)
Lemma SGD_call_momentums key lr_scale (fr fr' : frame SGD) r :
  SGD_call key lr_scale fr = (r, fr') ->
  SGD_momentums (self fr') = SGD_momentums (self fr)
  \/ key <> None
     /\ exists m',
       SGD_momentums (self fr') = <[key := m']> (SGD_momentums (self fr))
       /\ forall m, SGD_momentums (self fr) !! key = Some m -> length m' = length m.
Proof.
  rewrite SGD_call_unfold. cbv zeta.
  destruct (SGD_lr _ _) as [e|lr]; [intros [= _ <-]; by left|].
  destruct (bool_decide (key = None)) eqn:Ek; simpl.
  { destruct (isub _ _) as [e|w1]; [intros [= _ <-]; by left|].
    intros E. left.
    by apply (track_average_keeps SGD_ops SGD_averages SGD_set_averages
                SGD_momentums _ _ _ _ _ (fun _ _ => eq_refl)) in E. }
  apply bool_decide_eq_false in Ek.
  destruct (bool_decide (SGD_mu (self fr) = 0)); simpl.
  { destruct (isub _ _) as [e|w1]; [intros [= _ <-]; by left|].
    intros E. left.
    by apply (track_average_keeps SGD_ops SGD_averages SGD_set_averages
                SGD_momentums _ _ _ _ _ (fun _ _ => eq_refl)) in E. }
  rewrite lookup_total_insert_eq, setdefault_zeros_lookup_total.
  set (m0 := default _ (SGD_momentums (self fr) !! key)).
  assert (Hm0 : forall m, SGD_momentums (self fr) !! key = Some m ->
                          length m0 = length m).
  { intros m Hm. unfold m0. by rewrite Hm. }
  intros E. right. split; [done|]. revert E.
  destruct (iadd _ _) as [e|mom] eqn:E1.
  { intros [= _ <-]. simpl. rewrite insert_setdefault_zeros.
    eexists. split; [done|]. intros m Hm. rewrite length_muls. by apply Hm0. }
  apply inplace_length in E1. rewrite length_muls in E1.
  destruct (isub _ _) as [e|w1].
  { intros [= _ <-]. simpl. rewrite insert_insert_eq, insert_setdefault_zeros.
    eexists. split; [done|]. intros m Hm. rewrite E1. by apply Hm0. }
  intros E.
  apply (track_average_keeps SGD_ops SGD_averages SGD_set_averages
           SGD_momentums _ _ _ _ _ (fun _ _ => eq_refl)) in E.
  simpl in E. rewrite insert_insert_eq, insert_setdefault_zeros in E.
  eexists. split; [done|]. intros m Hm. rewrite E1. by apply Hm0.
Qed.

(** The averages after [SGD.__call__], whatever its outcome. *)
Lemma SGD_call_averages key lr_scale (fr fr' : frame SGD) r :
  SGD_call key lr_scale fr = (r, fr') ->
  match SGD_averages (self fr) with
  | None => SGD_averages (self fr') = None
  | Some a =>
      SGD_averages (self fr') = Some a
      \/ exists avg, SGD_averages (self fr') = Some (<[key := avg]> a)
  end.
Proof.
  rewrite SGD_call_unfold. cbv zeta.
  assert (Hsame : forall fr1 : frame SGD,
             SGD_averages (self fr1) = SGD_averages (self fr) ->
             match SGD_averages (self fr) with
             | None => SGD_averages (self fr1) = None
             | Some a =>
                 SGD_averages (self fr1) = Some a
                 \/ exists avg, SGD_averages (self fr1) = Some (<[key := avg]> a)
             end).
  { intros fr1 ->. destruct (SGD_averages (self fr)); [by left|done]. }
  assert (Htrack : forall fr1 : frame SGD,
             SGD_averages (self fr1) = SGD_averages (self fr) ->
             track_average SGD_ops SGD_averages SGD_set_averages key
               (counter (SGD_nr_update (self fr)) key + 1) fr1 = (r, fr') ->
             match SGD_averages (self fr) with
             | None => SGD_averages (self fr') = None
             | Some a =>
                 SGD_averages (self fr') = Some a
                 \/ exists avg, SGD_averages (self fr') = Some (<[key := avg]> a)
             end).
  { intros fr1 Hfr1 E.
    apply (track_average_get SGD_ops SGD_averages SGD_set_averages
             _ _ _ _ _ (fun _ _ => eq_refl)) in E.
    rewrite Hfr1 in E. destruct (SGD_averages (self fr)); [by right|done]. }
  destruct (SGD_lr _ _) as [e|lr]; [intros [= _ <-]; by apply Hsame|].
  destruct (_ || _).
  - destruct (isub _ _) as [e|w1]; [intros [= _ <-]; by apply Hsame|].
    by apply Htrack.
  - destruct (iadd _ _) as [e|mom]; [intros [= _ <-]; by apply Hsame|].
    destruct (isub _ _) as [e|w1]; [intros [= _ <-]; by apply Hsame|].
    by apply Htrack.
Qed.

(** The moment buffers, counters and averages after [Adam.__call__],
    whatever its outcome. *)
Lemma Adam_call_maps lr_scale key (fr fr' : frame Adam) r :
  Adam_call lr_scale key fr = (r, fr') ->
  fr' = fr
  \/ key <> None
     /\ Adam_nr_update (self fr') = incr key (Adam_nr_update (self fr))
     /\ (exists m',
          Adam_mom1 (self fr') = <[key := m']> (Adam_mom1 (self fr))
          /\ forall m, Adam_mom1 (self fr) !! key = Some m -> length m' = length m)
     /\ (exists m',
          Adam_mom2 (self fr') = <[key := m']> (Adam_mom2 (self fr))
          /\ forall m, Adam_mom2 (self fr) !! key = Some m -> length m' = length m)
     /\ match Adam_averages (self fr) with
        | None => Adam_averages (self fr') = None
        | Some a =>
            Adam_averages (self fr') = Some a
            \/ exists avg, Adam_averages (self fr') = Some (<[key := avg]> a)
        end.
Proof.
  rewrite Adam_call_unfold. cbv zeta.
  destruct (bool_decide (key = None)) eqn:Ek; [intros [= _ <-]; by left|].
  apply bool_decide_eq_false in Ek.
  destruct (bool_decide _); [|intros [= _ <-]; by left].
  intros E. right. split; [done|]. revert E.
  set (n := length (weights fr)).
  assert (Hmid : forall w g,
    let fr1 := Frame
      (Adam_set_nr_update (incr key (Adam_nr_update (self fr)))
         (Adam_set_mom2 (setdefault_zeros key n (Adam_mom2 (self fr)))
            (Adam_set_mom1 (setdefault_zeros key n (Adam_mom1 (self fr)))
               (self fr)))) w g in
    Adam_nr_update (self fr1) = incr key (Adam_nr_update (self fr))
    /\ (exists m',
          Adam_mom1 (self fr1) = <[key := m']> (Adam_mom1 (self fr))
          /\ forall m, Adam_mom1 (self fr) !! key = Some m -> length m' = length m)
    /\ (exists m',
          Adam_mom2 (self fr1) = <[key := m']> (Adam_mom2 (self fr))
          /\ forall m, Adam_mom2 (self fr) !! key = Some m -> length m' = length m)
    /\ match Adam_averages (self fr) with
       | None => Adam_averages (self fr1) = None
       | Some a =>
           Adam_averages (self fr1) = Some a
           \/ exists avg, Adam_averages (self fr1) = Some (<[key := avg]> a)
       end).
  { intros w g. simpl. split; [done|]. split; [|split].
    - eexists. split; [apply setdefault_zeros_insert|]. by intros m ->.
    - eexists. split; [apply setdefault_zeros_insert|]. by intros m ->.
    - destruct (Adam_averages (self fr)); [by left|done]. }
  destruct (iadd _ _) as [e|g1]; [intros [= _ <-]; apply Hmid|].
  destruct (Adam_lr _ _) as [e|lr]; [intros [= _ <-]; apply Hmid|].
  simpl. rewrite !setdefault_zeros_lookup_total. fold n.
  destruct (ops_adam _ _ _ _ _ _ _ _) as [e|[[w1 m1'] m2']] eqn:E3;
    [intros [= _ <-]; apply Hmid|].
  apply ops_adam_inv in E3 as (Hl0 & Hl1 & Hl2 & -> & -> & _).
  intros E.
  pose proof (track_average_keeps Adam_ops Adam_averages Adam_set_averages
                Adam_nr_update _ _ _ _ _ (fun _ _ => eq_refl) E) as Hn.
  pose proof (track_average_keeps Adam_ops Adam_averages Adam_set_averages
                Adam_mom1 _ _ _ _ _ (fun _ _ => eq_refl) E) as Hm1.
  pose proof (track_average_keeps Adam_ops Adam_averages Adam_set_averages
                Adam_mom2 _ _ _ _ _ (fun _ _ => eq_refl) E) as Hm2.
  apply (track_average_get Adam_ops Adam_averages Adam_set_averages
           _ _ _ _ _ (fun _ _ => eq_refl)) in E.
  simpl in Hn, Hm1, Hm2, E. rewrite insert_setdefault_zeros in Hm1, Hm2.
  split; [done|]. split; [|split].
  - eexists. split; [done|]. intros m Hm.
    rewrite length_adam_mom1; [|lia]. rewrite Hm in Hl1. simpl in Hl1. lia.
  - eexists. split; [done|]. intros m Hm.
    rewrite length_adam_mom2; [|lia]. rewrite Hm in Hl2. simpl in Hl2. lia.
  - destruct (Adam_averages (self fr)); [by right|done].
Qed.

(** ** Parameter groups are independent *)

(** X7.  A call for one key never touches what is stored for another:
    the counter, the momentum or moment buffers and the average of every
    other key are as before, whether the call returns or raises. *)
Theorem other_keys_untouched (key k : option K) :
  k <> key ->
  (forall lr_scale (fr : frame SGD),
     let s' := self (SGD_call key lr_scale fr).2 in
     SGD_nr_update s' !! k = SGD_nr_update (self fr) !! k
     /\ SGD_momentums s' !! k = SGD_momentums (self fr) !! k
     /\ SGD_averages s' ≫= (.!! k) = SGD_averages (self fr) ≫= (.!! k))
  /\ (forall lr_scale (fr : frame Adam),
     let a' := self (Adam_call lr_scale key fr).2 in
     Adam_nr_update a' !! k = Adam_nr_update (self fr) !! k
     /\ Adam_mom1 a' !! k = Adam_mom1 (self fr) !! k
     /\ Adam_mom2 a' !! k = Adam_mom2 (self fr) !! k
     /\ Adam_averages a' ≫= (.!! k) = Adam_averages (self fr) ≫= (.!! k)).
Proof.
  intros Hk. split.
  - intros lr_scale fr. destruct (SGD_call key lr_scale fr) as [r fr'] eqn:E.
    simpl. split; [|split].
    + rewrite (SGD_call_nr_update _ _ _ _ _ E). by apply counter_incr_ne.
    + destruct (SGD_call_momentums _ _ _ _ _ E) as [->|(_ & m' & -> & _)];
        [done|]. by rewrite lookup_insert_ne.
    + pose proof (SGD_call_averages _ _ _ _ _ E) as Ha.
      destruct (SGD_averages (self fr)) as [a|]; [|by rewrite Ha].
      destruct Ha as [->|[avg ->]]; [done|]. simpl. by rewrite lookup_insert_ne.
  - intros lr_scale fr. destruct (Adam_call lr_scale key fr) as [r fr'] eqn:E.
    simpl.
    destruct (Adam_call_maps _ _ _ _ _ E)
      as [->|(_ & Hn & (m1 & Hm1 & _) & (m2 & Hm2 & _) & Ha)]; [done|].
    split; [|split; [|split]].
    + rewrite Hn. by apply counter_incr_ne.
    + rewrite Hm1. by rewrite lookup_insert_ne.
    + rewrite Hm2. by rewrite lookup_insert_ne.
    + destruct (Adam_averages (self fr)) as [a|]; [|by rewrite Ha].
      destruct Ha as [->|[avg ->]]; [done|]. simpl. by rewrite lookup_insert_ne.
Qed.

(** X8.  A buffer, once allocated, is never dropped or resized: a
    momentum buffer of an [SGD], and either moment buffer of an [Adam],
    is still stored under its key after any further call, with the length
    it had, whether that call returns or raises. *)
Theorem buffers_persist (k : option K) (m : ndarray) :
  (forall key lr_scale (fr : frame SGD),
     SGD_momentums (self fr) !! k = Some m ->
     exists m', SGD_momentums (self (SGD_call key lr_scale fr).2) !! k = Some m'
                /\ length m' = length m)
  /\ (forall key lr_scale (fr : frame Adam),
     Adam_mom1 (self fr) !! k = Some m ->
     exists m', Adam_mom1 (self (Adam_call lr_scale key fr).2) !! k = Some m'
                /\ length m' = length m)
  /\ (forall key lr_scale (fr : frame Adam),
     Adam_mom2 (self fr) !! k = Some m ->
     exists m', Adam_mom2 (self (Adam_call lr_scale key fr).2) !! k = Some m'
                /\ length m' = length m).
Proof.
  split; [|split].
  - intros key lr_scale fr Hm.
    destruct (SGD_call key lr_scale fr) as [r fr'] eqn:E. simpl.
    destruct (SGD_call_momentums _ _ _ _ _ E) as [->|(_ & m' & -> & Hlen)];
      [by exists m|].
    destruct (decide (k = key)) as [->|Hk].
    + exists m'. rewrite lookup_insert_eq. split; [done|]. by apply Hlen.
    + exists m. by rewrite lookup_insert_ne.
  - intros key lr_scale fr Hm.
    destruct (Adam_call lr_scale key fr) as [r fr'] eqn:E. simpl.
    destruct (Adam_call_maps _ _ _ _ _ E)
      as [->|(_ & _ & (m' & -> & Hlen) & _ & _)]; [by exists m|].
    destruct (decide (k = key)) as [->|Hk].
    + exists m'. rewrite lookup_insert_eq. split; [done|]. by apply Hlen.
    + exists m. by rewrite lookup_insert_ne.
  - intros key lr_scale fr Hm.
    destruct (Adam_call lr_scale key fr) as [r fr'] eqn:E. simpl.
    destruct (Adam_call_maps _ _ _ _ _ E)
      as [->|(_ & _ & _ & (m' & -> & Hlen) & _)]; [by exists m|].
    destruct (decide (k = key)) as [->|Hk].
    + exists m'. rewrite lookup_insert_eq. split; [done|]. by apply Hlen.
    + exists m. by rewrite lookup_insert_ne.
Qed.

(** ** The averages switch *)

Lemma Eve_set_loss_optimizer loss (e : Eve) :
  Eve_optimizer (Eve_set_loss loss e).2 = Eve_optimizer e.
Proof.
  unfold Eve_set_loss, bind, gets, modify, lift.
  destruct (Eve_f e) as [old_f|]; simpl; [|done].
  destruct (Eve_get_c _ _ _) as [x|c]; simpl; [done|].
  destruct (py_div _ _); done.
Qed.

Lemma optimizer_call_averages key lr_scale (fr : frame optimizer) :
  match optimizer_averages (self fr) with
  | None => optimizer_averages (self (optimizer_call key lr_scale fr).2) = None
  | Some _ => is_Some (optimizer_averages (self (optimizer_call key lr_scale fr).2))
  end.
Proof.
  unfold optimizer_call, with_self. destruct fr as [[s|a] w g]; simpl.
  - destruct (SGD_call _ _ _) as [r fr1] eqn:E. simpl.
    pose proof (SGD_call_averages _ _ _ _ _ E) as Ha. simpl in Ha.
    destruct (SGD_averages s); [|done].
    destruct Ha as [->|[avg ->]]; by eexists.
  - destruct (Adam_call _ _ _) as [r fr1] eqn:E. simpl.
    destruct (Adam_call_maps _ _ _ _ _ E) as [->|(_ & _ & _ & _ & Ha)]; simpl in *.
    + destruct (Adam_averages a); [by eexists|done].
    + destruct (Adam_averages a); [|done].
      destruct Ha as [->|[avg ->]]; by eexists.
Qed.

Lemma step_averages (i : instance) (o : op) :
  match averages i with
  | None => averages (step i o) = None
  | Some _ => is_Some (averages (step i o))
  end.
Proof.
  destruct o as [w g key lr_scale|loss]; simpl.
  - unfold update, with_self. destruct i as [o|e]; simpl.
    + pose proof (optimizer_call_averages key (default 1 lr_scale) (Frame o w g))
        as Ha.
      destruct (optimizer_call _ _ _) as [r fr1]. exact Ha.
    + destruct lr_scale as [x|]; simpl.
      { destruct (optimizer_averages (Eve_optimizer e)); [by eexists|done]. }
      unfold Eve_call, with_self. simpl.
      pose proof (optimizer_call_averages key (Eve_d e)
                    (Frame (Eve_optimizer e) w g)) as Ha.
      destruct (optimizer_call _ _ _) as [r fr1]. exact Ha.
  - destruct i as [[s|a]|e]; simpl.
    + destruct (SGD_averages s); [by eexists|done].
    + destruct (Adam_averages a); [by eexists|done].
    + pose proof (Eve_set_loss_optimizer loss e) as Ho.
      destruct (Eve_set_loss loss e) as [r e']. simpl in *. rewrite Ho.
      destruct (optimizer_averages (Eve_optimizer e)); [by eexists|done].
Qed.

(** X9.  The choice made at construction is kept for the life of the
    instance: one built without averages ([averages=False]) never gets
    an averages dictionary, however it is called, and one built with it
    never loses it. *)
Theorem averages_switch_is_fixed (i : instance) (ops : list op) :
  (averages i = None -> averages (run i ops) = None)
  /\ (is_Some (averages i) -> is_Some (averages (run i ops))).
Proof.
  revert i. induction ops as [|o ops IH]; intros i; [done|]. simpl.
  pose proof (step_averages i o) as Hstep.
  destruct (IH (step i o)) as [IHnone IHsome]. split.
  - intros Hi. rewrite Hi in Hstep. by apply IHnone.
  - intros [a Hi]. rewrite Hi in Hstep. by apply IHsome.
Qed.

(** ** The keys of the dictionaries *)

Lemma counted_incr (m : gmap (option K) nat) key : counted m -> counted (incr key m).
Proof.
  intros Hm k n. unfold incr. destruct (decide (k = key)) as [->|Hk].
  - rewrite lookup_insert_eq. intros [= <-]. lia.
  - rewrite lookup_insert_ne by done. apply Hm.
Qed.

Lemma is_Some_incr (m : gmap (option K) nat) key k :
  is_Some (incr key m !! k) <-> k = key \/ is_Some (m !! k).
Proof.
  unfold incr. destruct (decide (k = key)) as [->|Hk].
  - rewrite lookup_insert_eq. split; [by left|by eexists].
  - rewrite lookup_insert_ne by done. split; [by right|]. by intros [?|?].
Qed.

Lemma is_Some_insert {A} (m : gmap (option K) A) key x k :
  is_Some (<[key := x]> m !! k) <-> k = key \/ is_Some (m !! k).
Proof.
  destruct (decide (k = key)) as [->|Hk].
  - rewrite lookup_insert_eq. split; [by left|by eexists].
  - rewrite lookup_insert_ne by done. split; [by right|]. by intros [?|?].
Qed.

Lemma SGD_call_wf key lr_scale (fr fr' : frame SGD) r :
  SGD_wf (self fr) -> SGD_call key lr_scale fr = (r, fr') -> SGD_wf (self fr').
Proof.
  intros (Hmom & Hnone & Hcnt & Havg) E.
  pose proof (SGD_call_nr_update _ _ _ _ _ E) as Hn.
  pose proof (SGD_call_momentums _ _ _ _ _ E) as Hm.
  pose proof (SGD_call_averages _ _ _ _ _ E) as Ha.
  unfold SGD_wf. rewrite Hn. split; [|split; [|split]].
  - intros k Hk. apply is_Some_incr.
    destruct Hm as [Hm|(_ & m' & Hm & _)]; rewrite Hm in Hk.
    + right. by apply Hmom.
    + apply is_Some_insert in Hk as [Hk|Hk]; [by left|right; by apply Hmom].
  - destruct Hm as [->|(Hkey & m' & -> & _)]; [done|].
    by rewrite lookup_insert_ne.
  - by apply counted_incr.
  - intros avgs k Havgs Hk. apply is_Some_incr.
    destruct (SGD_averages (self fr)) as [a|]; [|congruence].
    destruct Ha as [Ha|[avg Ha]]; rewrite Ha in Havgs;
      injection Havgs as <-.
    + right. by eapply Havg.
    + apply is_Some_insert in Hk as [Hk|Hk]; [by left|right; by eapply Havg].
Qed.

Lemma Adam_call_wf lr_scale key (fr fr' : frame Adam) r :
  Adam_wf (self fr) -> Adam_call lr_scale key fr = (r, fr') -> Adam_wf (self fr').
Proof.
  intros Hwf E.
  destruct (Adam_call_maps _ _ _ _ _ E)
    as [->|(Hkey & Hn & (m1 & Hm1 & _) & (m2 & Hm2 & _) & Ha)]; [done|].
  destruct Hwf as (H1 & H2 & Hnone & Hcnt & Havg).
  unfold Adam_wf. rewrite Hn, Hm1, Hm2. split; [|split; [|split; [|split]]].
  - intros k. rewrite is_Some_insert, is_Some_incr. by rewrite H1.
  - intros k. rewrite is_Some_insert, is_Some_incr. by rewrite H2.
  - unfold incr. by rewrite lookup_insert_ne.
  - by apply counted_incr.
  - intros avgs k Havgs Hk. apply is_Some_incr.
    destruct (Adam_averages (self fr)) as [a|]; [|congruence].
    destruct Ha as [Ha|[avg Ha]]; rewrite Ha in Havgs;
      injection Havgs as <-.
    + right. by eapply Havg.
    + apply is_Some_insert in Hk as [Hk|Hk]; [by left|right; by eapply Havg].
Qed.

Lemma optimizer_call_wf key lr_scale (fr : frame optimizer) :
  optimizer_wf (self fr) ->
  optimizer_wf (self (optimizer_call key lr_scale fr).2).
Proof.
  unfold optimizer_call, with_self. destruct fr as [[s|a] w g]; simpl; intros Hwf.
  - destruct (SGD_call _ _ _) as [r fr1] eqn:E. simpl.
    by eapply SGD_call_wf; [|exact E].
  - destruct (Adam_call _ _ _) as [r fr1] eqn:E. simpl.
    by eapply Adam_call_wf; [|exact E].
Qed.

Lemma step_wf (i : instance) (o : op) : instance_wf i -> instance_wf (step i o).
Proof.
  intros Hwf. destruct o as [w g key lr_scale|loss]; simpl.
  - unfold update, with_self. destruct i as [o|e]; simpl.
    + pose proof (optimizer_call_wf key (default 1 lr_scale) (Frame o w g) Hwf)
        as Hstep.
      destruct (optimizer_call _ _ _) as [r fr1]. exact Hstep.
    + destruct lr_scale as [x|]; [done|].
      unfold Eve_call, with_self. simpl.
      pose proof (optimizer_call_wf key (Eve_d e)
                    (Frame (Eve_optimizer e) w g) Hwf) as Hstep.
      destruct (optimizer_call _ _ _) as [r fr1]. exact Hstep.
  - destruct i as [[s|a]|e]; simpl; [done..|].
    pose proof (Eve_set_loss_optimizer loss e) as Ho.
    destruct (Eve_set_loss loss e) as [r e']. simpl in *. by rewrite Ho.
Qed.

(** X10.  The dictionaries of an instance stay in step for its whole
    life, through calls that return and calls that raise.  Every counter
    that is stored is at least 1.  An [Adam] holds both moment buffers for
    exactly the keys it has a counter for, and never any for [None].  An
    [SGD] holds momentum buffers only for keys it has a counter for, and
    none under [None].  Averages are held only for keys with a counter. *)
Theorem dictionaries_in_step :
  (forall ops lr momentum decay avg,
      instance_wf (Plain (OptSGD (SGD_init ops lr momentum decay avg))))
  /\ (forall ops lr L2 beta1 beta2 eps decay,
      instance_wf (Plain (OptAdam (Adam_init ops lr L2 beta1 beta2 eps decay))))
  /\ (forall o, instance_wf (Plain o) -> instance_wf (Wrapped (Eve_init o)))
  /\ (forall i ops, instance_wf i -> instance_wf (run i ops)).
Proof.
  split; [|split; [|split]].
  - intros ops lr momentum decay avg. simpl. unfold SGD_wf, counted. simpl.
    split; [|split; [|split]].
    + intros k. by rewrite !lookup_empty.
    + apply lookup_empty.
    + intros k n. by rewrite lookup_empty.
    + intros avgs k. destruct avg; [|done]. intros [= <-].
      rewrite lookup_empty. by intros [? ?].
  - intros ops lr L2 beta1 beta2 eps decay. simpl. unfold Adam_wf, counted. simpl.
    split; [|split; [|split; [|split]]].
    + intros k. by rewrite !lookup_empty.
    + intros k. by rewrite !lookup_empty.
    + apply lookup_empty.
    + intros k n. by rewrite lookup_empty.
    + intros avgs k [= <-]. rewrite lookup_empty. by intros [? ?].
  - done.
  - intros i ops. revert i. induction ops as [|o ops IH]; intros i Hwf; [done|].
    simpl. apply IH. by apply step_wf.
Qed.

(** ** [nr_iter] *)

Lemma nr_iter_bound (m : gmap (option K) nat) k : (counter m k <= nr_iter m)%nat.
Proof.
  unfold counter, nr_iter. destruct (m !! k) as [n|] eqn:E; simpl; [|lia].
  destruct (decide (m = ∅)) as [->|Hne]; [by rewrite lookup_empty in E|].
  apply max_list_elem_of_le. apply list_elem_of_fmap.
  exists (k, n). split; [done|]. by apply elem_of_map_to_list.
Qed.

Lemma nr_iter_attained (m : gmap (option K) nat) :
  m <> ∅ -> exists k, m !! k = Some (nr_iter m).
Proof.
  intros Hne. unfold nr_iter. rewrite decide_False by done.
  assert (Hl : (map_to_list m).*2 <> []).
  { intros Hnil. apply fmap_nil_inv in Hnil. by apply map_to_list_empty_iff in Hnil. }
  apply max_list_elem_of in Hl. apply list_elem_of_fmap in Hl as ([k n] & Hn & Hin).
  simpl in Hn. exists k. apply elem_of_map_to_list in Hin. by rewrite Hn.
Qed.

Lemma nr_iter_incr (m : gmap (option K) nat) key :
  nr_iter (incr key m) = Nat.max (nr_iter m) (counter m key + 1).
Proof.
  apply Nat.le_antisymm.
  - assert (Hne : incr key m <> ∅) by apply insert_non_empty.
    destruct (nr_iter_attained _ Hne) as [k Hk]. unfold incr in Hk.
    destruct (decide (k = key)) as [->|Hkey].
    + rewrite lookup_insert_eq in Hk. injection Hk as Hk. fold (incr key m) in Hk.
      lia.
    + rewrite lookup_insert_ne in Hk by done. fold (incr key m) in Hk.
      pose proof (nr_iter_bound m k) as Hb. unfold counter in Hb.
      rewrite Hk in Hb. simpl in Hb. lia.
  - apply Nat.max_lub.
    + destruct (decide (m = ∅)) as [->|Hne].
      { unfold nr_iter at 1. rewrite decide_True by done. lia. }
      destruct (nr_iter_attained _ Hne) as [k Hk].
      pose proof (nr_iter_bound (incr key m) k) as Hb.
      destruct (decide (k = key)) as [->|Hkey].
      * rewrite counter_incr in Hb. unfold counter in Hb. rewrite Hk in Hb.
        simpl in Hb. lia.
      * unfold counter in Hb. rewrite counter_incr_ne, Hk in Hb by done.
        simpl in Hb. lia.
    + pose proof (nr_iter_bound (incr key m) key) as Hb.
      by rewrite counter_incr in Hb.
Qed.

(** X11.  [nr_iter] is the largest update counter: 0 when no key has
    been counted, otherwise the counter of some key, and never below the
    counter of any key. *)
Theorem nr_iter_is_max (counters : gmap (option K) nat) :
  (forall k, (counter counters k <= nr_iter counters)%nat)
  /\ (counters = ∅ -> nr_iter counters = 0%nat)
  /\ (counters <> ∅ -> exists k, counters !! k = Some (nr_iter counters)).
Proof.
  split; [|split].
  - apply nr_iter_bound.
  - intros ->. unfold nr_iter. by rewrite decide_True.
  - apply nr_iter_attained.
Qed.

(** X12.  An update that returns raises [nr_iter] to the counter it has
    just incremented if that is larger, and otherwise leaves it; over any
    sequence of operations [nr_iter] never goes down. *)
Theorem nr_iter_after_update :
  (forall i w g key lr_scale fr',
      update key lr_scale (Frame i w g) = (inr tt, fr') ->
      nr_iter (nr_update (self fr'))
      = Nat.max (nr_iter (nr_update i)) (counter (nr_update i) key + 1))
  /\ (forall ops i, (nr_iter (nr_update i) <= nr_iter (nr_update (run i ops)))%nat).
Proof.
  split.
  - intros i w g key lr_scale fr' E.
    apply update_nr_update in E as [[E _]|E]; [done|]. simpl in E.
    rewrite E. apply nr_iter_incr.
  - induction ops as [|o ops IH]; intros i; [done|]. simpl.
    etrans; [|apply IH].
    destruct (step_nr_update i o) as [->|(key & _ & ->)]; [done|].
    rewrite nr_iter_incr. lia.
Qed.

(** ** More on Eve *)

(** X13.  [Eve.set_loss] writes [d] and [f] and nothing else: the wrapped
    optimizer, [b3] and the thresholds are as before.  When it raises (a
    division by zero) it has written nothing at all.  The first report
    stores the loss as the baseline and leaves [d]. *)
Theorem Eve_set_loss_writes_d_and_f (loss : R) (e : Eve) :
  let r := (Eve_set_loss loss e).1 in
  let e' := (Eve_set_loss loss e).2 in
  Eve_optimizer e' = Eve_optimizer e
  /\ Eve_b3 e' = Eve_b3 e
  /\ Eve_lower_threshold e' = Eve_lower_threshold e
  /\ Eve_upper_threshold e' = Eve_upper_threshold e
  /\ (r <> inr tt -> r = inl ZeroDivisionError /\ e' = e)
  /\ (Eve_f e = None ->
      r = inr tt /\ Eve_d e' = Eve_d e /\ Eve_f e' = Some loss).
Proof.
  unfold Eve_set_loss, bind, gets, modify, lift.
  destruct (Eve_f e) as [old_f|] eqn:Ef; simpl.
  - destruct (Eve_get_c e loss old_f) as [x|c] eqn:Ec; simpl.
    { assert (x = ZeroDivisionError) as ->.
      { revert Ec. unfold Eve_get_c.
        destruct (Rlt_dec loss old_f).
        - destruct (py_div loss old_f) eqn:E1; [|done].
          intros [= <-]. by apply py_div_raises in E1.
        - destruct (py_div 1 _) eqn:E1.
          { intros [= <-]. by apply py_div_raises in E1. }
          destruct (py_div 1 _) eqn:E2 in |- *.
          { intros [= <-]. by apply py_div_raises in E2. }
          destruct (py_div loss old_f) eqn:E3; [|done].
          intros [= <-]. by apply py_div_raises in E3. }
      repeat split; done. }
    destruct (py_div _ _) as [x|r] eqn:Er; simpl.
    + apply py_div_raises in Er as ->. repeat split; done.
    + repeat split; done.
  - repeat split; done.
Qed.

Lemma Eve_set_optimizer_same (e : Eve) :
  Eve_set_optimizer (Eve_optimizer e) e = e.
Proof. by destruct e. Qed.

(** X15.  An [Eve] around an [Adam] cannot be called with its default
    key: the call ends in [Adam]'s [AssertionError] and leaves the
    wrapper, the [Adam] inside and both arrays as they were. *)
Theorem Eve_around_Adam_needs_key (e : Eve) (a : Adam) (w g : ndarray) :
  Eve_optimizer e = OptAdam a ->
  Eve_call None (Frame e w g) = (inl AssertionError, Frame e w g).
Proof.
  intros Ho.
  assert (Hinner : optimizer_call None (Eve_d e) (Frame (OptAdam a) w g)
                   = (inl AssertionError, Frame (OptAdam a) w g)).
  { unfold optimizer_call, with_self, set_self. cbn [self weights gradient].
    by rewrite Adam_call_asserts by (by left). }
  unfold Eve_call, with_self, set_self. cbn [self weights gradient].
  rewrite Ho, Hinner. cbn [self weights gradient].
  by rewrite <- Ho, Eve_set_optimizer_same.
Qed.

(** X16.  Until a second loss has been reported the wrapper is
    transparent: a new [Eve], also after its first [set_loss], calls the
    wrapped optimizer with [lr_scale = 1], so an update through it has the
    outcome, the arrays and the optimizer state of the same update on the
    optimizer itself. *)
Theorem Eve_transparent_at_first (o : optimizer) (reported : bool) (loss : R)
    key (w g : ndarray) :
  let e := if reported then (Eve_set_loss loss (Eve_init o)).2 else Eve_init o in
  let direct := optimizer_call key 1 (Frame o w g) in
  let wrapped := Eve_call key (Frame e w g) in
  wrapped.1 = direct.1
  /\ weights wrapped.2 = weights direct.2
  /\ gradient wrapped.2 = gradient direct.2
  /\ Eve_optimizer (self wrapped.2) = self direct.2.
Proof.
  intros e direct wrapped. subst direct wrapped.
  assert (Hd : Eve_d e = 1 /\ Eve_optimizer e = o) by (by destruct reported).
  destruct Hd as [Hd Ho].
  unfold Eve_call, with_self, set_self. cbn [self weights gradient].
  rewrite Hd, Ho.
  by destruct (optimizer_call key 1 (Frame o w g)) as [r fr1].
Qed.

(** ** The rate of [Adam] is defined *)

Lemma pow_lt_one b (n : nat) : 0 <= b < 1 -> (1 <= n)%nat -> b ^ n < 1.
Proof.
  intros Hb Hn. destruct n as [|n]; [lia|]. clear Hn.
  induction n as [|n IH]; simpl in *; [lra|].
  assert (0 <= b ^ n) by (apply pow_le; lra). nra.
Qed.

(** X17.  For the usual hyperparameters (a base rate and a decay that
    are not negative, both betas in [0, 1)) and any counter [n >= 1],
    [Adam.lr] raises nothing, both of its bias corrections
    [1 - beta ** n] are positive, and the rate it returns is not
    negative. *)
Theorem Adam_lr_defined (a : Adam) (n : nat) :
  0 <= Adam_alpha a -> 0 <= Adam_decay a ->
  0 <= Adam_b1 a < 1 -> 0 <= Adam_b2 a < 1 -> (1 <= n)%nat ->
  0 < 1 - Adam_b1 a ^ n
  /\ 0 < 1 - Adam_b2 a ^ n
  /\ exists lr, Adam_lr a n = inr lr /\ 0 <= lr.
Proof.
  intros Halpha Hdecay Hb1 Hb2 Hn.
  pose proof (pos_INR n) as HINR.
  assert (Hden : 0 < 1 + Adam_decay a * INR n) by nra.
  pose proof (pow_lt_one _ n Hb1 Hn) as H1.
  pose proof (pow_lt_one _ n Hb2 Hn) as H2.
  split; [lra|]. split; [lra|].
  rewrite Adam_lr_value by lra. eexists. split; [done|].
  pose proof (sqrt_pos (1 - Adam_b2 a ^ n)) as Hs.
  assert (Hi1 : 0 < / (1 - Adam_b1 a ^ n)) by (apply Rinv_0_lt_compat; lra).
  assert (Hi2 : 0 < / (1 + Adam_decay a * INR n)) by (by apply Rinv_0_lt_compat).
  unfold Rdiv. apply Rmult_le_pos; [|lra].
  apply Rmult_le_pos; [|done].
  apply Rmult_le_pos; lra.
Qed.

(** ** Arrays of different lengths *)

(** X18.  In the direct branch of [SGD.__call__] a gradient whose length
    is neither that of the weights nor 1 is not truncated or padded: the
    in-place subtraction raises [ValueError] with the weights untouched,
    after the counter was incremented and the gradient clipped (and
    before it is zeroed). *)
Theorem SGD_call_length_mismatch key lr_scale (fr : frame SGD) :
  let s := self fr in
  key = None \/ SGD_mu s = 0 ->
  length (gradient fr) <> length (weights fr) ->
  length (gradient fr) <> 1%nat ->
  1 + SGD_decay s * INR (counter (SGD_nr_update s) key + 1) <> 0 ->
  SGD_call key lr_scale fr
  = (inl ValueError,
     Frame (SGD_set_nr_update (incr key (SGD_nr_update s)) s)
           (weights fr)
           (ops_clip_gradient (gradient fr) (SGD_max_grad_norm s))).
Proof.
  intros s Hdirect Hlen Hone Hdecay.
  rewrite SGD_call_unfold. cbv zeta. fold s.
  unfold SGD_lr. rewrite linear_decay_value by done.
  assert (Hb : bool_decide (key = None) || bool_decide (SGD_mu s = 0) = true).
  { destruct Hdirect as [Hk|Hmu].
    - by rewrite (bool_decide_true _ Hk).
    - by rewrite (bool_decide_true _ Hmu), orb_true_r. }
  rewrite Hb. unfold isub, inplace, broadcast.
  rewrite decide_False by (by rewrite length_smul, length_ops_clip_gradient).
  set (g1 := smul _ _).
  assert (Hg1 : length g1 = length (gradient fr))
    by (unfold g1; by rewrite length_smul, length_ops_clip_gradient).
  destruct g1 as [|x [|y g1]]; simpl in Hg1; [done| |done].
  by rewrite <- Hg1 in Hone.
Qed.

(** ** A second call before a new gradient *)

Lemma track_average_self {O : Type} (ops : O -> Ops)
    (get : O -> option (gmap (option K) ndarray)) put key nr_upd
    (fr fr' : frame O) r :
  (forall a b o, put a (put b o) = put a o) ->
  (forall a o, get (put a o) = a) ->
  (forall o, put (get o) o = o) ->
  track_average ops get put key nr_upd fr = (r, fr') ->
  self fr' = put (get (self fr')) (self fr).
Proof.
  intros Hpp Hgp Hpg. rewrite track_average_unfold.
  destruct (get (self fr)) as [a|] eqn:Ea.
  - cbv zeta. destruct (ops_update_averages _ _ _ _) as [e|avg];
      intros [= _ <-]; simpl; by rewrite ?Hgp, ?Hpp.
  - intros [= _ <-]. by rewrite <- (Hpg (self fr)) at 1.
Qed.

Lemma SGD_set_averages_same (s : SGD) : SGD_set_averages (SGD_averages s) s = s.
Proof. by destruct s. Qed.

Lemma SGD_call_zero_gradient key lr_scale (fr : frame SGD) :
  key = None \/ SGD_mu (self fr) = 0 ->
  gradient fr = replicate (length (weights fr)) 0 ->
  let fr2 := (SGD_call key lr_scale fr).2 in
  weights fr2 = weights fr
  /\ gradient fr2 = gradient fr
  /\ self fr2
     = SGD_set_averages (SGD_averages (self fr2))
         (SGD_set_nr_update (incr key (SGD_nr_update (self fr))) (self fr)).
Proof.
  intros Hdirect Hzero fr2. subst fr2.
  rewrite SGD_call_unfold. cbv zeta.
  set (s1 := SGD_set_nr_update _ _).
  destruct (SGD_lr _ _) as [e|lr].
  { split; [done|]. split; [done|]. symmetry. apply (SGD_set_averages_same s1). }
  assert (Hb : bool_decide (key = None) || bool_decide (SGD_mu (self fr) = 0)
               = true).
  { destruct Hdirect as [Hk|Hm].
    - by rewrite (bool_decide_true _ Hk).
    - by rewrite (bool_decide_true _ Hm), orb_true_r. }
  rewrite Hb, Hzero, ops_clip_gradient_zeros. unfold isub.
  rewrite inplace_same_length by (by rewrite length_smul, length_replicate).
  destruct (track_average _ _ _ _ _ _) as [r fr2] eqn:E. simpl.
  pose proof (track_average_arrays _ _ _ _ _ _ _ _ E) as [Hw Hg].
  pose proof (track_average_self SGD_ops SGD_averages SGD_set_averages
                _ _ _ _ _ (fun _ _ _ => eq_refl) (fun _ _ => eq_refl)
                SGD_set_averages_same E) as Hs.
  simpl in Hw, Hg, Hs. split; [|split].
  - rewrite Hw. unfold smul. rewrite zip_with_fmap_r. apply zip_with_sub_zeros.
  - rewrite Hg. unfold fill0. by rewrite length_replicate.
  - exact Hs.
Qed.

(** X6.  The gradient is left zeroed, so calling an [SGD] again on the
    same arrays before a new gradient has been accumulated moves no
    weight: after a call that returned, a second call in the direct
    branch (no key, or no momentum) leaves the weights and the gradient
    as they are, whether or not it returns.  Of the attributes of the
    optimizer it writes [nr_update], where the counter of the key
    advances, and [averages], where only the entry of the key can change
    (it is updated again when averages are enabled), and nothing else:
    the momentum buffers and the settings are as before. *)
Theorem SGD_call_twice key lr_scale lr_scale' (fr fr1 : frame SGD) :
  key = None \/ SGD_mu (self fr) = 0 ->
  length (gradient fr) = length (weights fr) ->
  SGD_call key lr_scale fr = (inr tt, fr1) ->
  let fr2 := (SGD_call key lr_scale' fr1).2 in
  weights fr2 = weights fr1
  /\ gradient fr2 = gradient fr1
  /\ counter (SGD_nr_update (self fr2)) key
     = (counter (SGD_nr_update (self fr)) key + 2)%nat
  /\ self fr2
     = SGD_set_averages (SGD_averages (self fr2))
         (SGD_set_nr_update (incr key (SGD_nr_update (self fr1))) (self fr1))
  /\ (forall k, k <> key ->
        SGD_averages (self fr2) ≫= (.!! k) = SGD_averages (self fr1) ≫= (.!! k)).
Proof.
  intros Hdirect Hlen E fr2.
  pose proof (SGD_call_gradient _ _ _ _ E) as Hg1.
  pose proof (SGD_call_nr_update _ _ _ _ _ E) as Hn1.
  assert (Hmu : SGD_mu (self fr1) = SGD_mu (self fr)).
  { revert E. rewrite SGD_call_unfold. cbv zeta.
    destruct (SGD_lr _ _) as [e|lr]; [done|].
    destruct (_ || _).
    - destruct (isub _ _) as [e|w1]; [done|]. intros E.
      by apply (track_average_keeps SGD_ops SGD_averages SGD_set_averages
                  SGD_mu _ _ _ _ _ (fun _ _ => eq_refl)) in E.
    - destruct (iadd _ _) as [e|mom]; [done|].
      destruct (isub _ _) as [e|w1]; [done|]. intros E.
      by apply (track_average_keeps SGD_ops SGD_averages SGD_set_averages
                  SGD_mu _ _ _ _ _ (fun _ _ => eq_refl)) in E. }
  assert (Hw1 : length (weights fr1) = length (weights fr)).
  { revert E. rewrite SGD_call_unfold. cbv zeta.
    destruct (SGD_lr _ _) as [e|lr]; [done|].
    destruct (_ || _).
    - destruct (isub _ _) as [e|w1] eqn:Ew; [done|]. intros E.
      apply track_average_arrays in E as [-> _]. simpl.
      by apply inplace_length in Ew.
    - destruct (iadd _ _) as [e|mom]; [done|].
      destruct (isub _ _) as [e|w1] eqn:Ew; [done|]. intros E.
      apply track_average_arrays in E as [-> _]. simpl.
      by apply inplace_length in Ew. }
  assert (Hzero : gradient fr1 = replicate (length (weights fr1)) 0)
    by (by rewrite Hg1, Hlen, Hw1).
  assert (Hdirect1 : key = None \/ SGD_mu (self fr1) = 0) by (by rewrite Hmu).
  destruct (SGD_call_zero_gradient key lr_scale' fr1 Hdirect1 Hzero)
    as (Hw & Hg & Hs).
  fold fr2 in Hw, Hg, Hs.
  split; [done|]. split; [done|]. split; [|split; [done|]].
  - rewrite Hs. simpl. rewrite counter_incr, Hn1, counter_incr. lia.
  - intros k Hk. subst fr2.
    destruct (SGD_call key lr_scale' fr1) as [r fr2] eqn:E2. simpl.
    pose proof (SGD_call_averages _ _ _ _ _ E2) as Ha.
    destruct (SGD_averages (self fr1)) as [a|]; [|by rewrite Ha].
    destruct Ha as [->|[avg ->]]; [done|]. simpl. by rewrite lookup_insert_ne.
Qed.

End Optimizers.

(** * Worked instances

    Keys are natural numbers; the [ops] object keeps a running mean. *)

Abbreviation mean_ops :=
  {| update_averages := fun avg weights nr_upd =>
       zip_with (fun a w => a + (w - a) / INR nr_upd) avg weights |}.

(** [SGD(ops, 1.0)], [Adam(ops, 0.001)] and [Adam(ops, 0.001, beta2=0.9)]. *)
Abbreviation sgd0 := (SGD_init (K := nat) mean_ops 1 0 0 true).
Abbreviation adam0 := (Adam_init (K := nat) mean_ops 0.001 1e-4 0.9 0.999 1e-8 0).
Abbreviation adam1 := (Adam_init (K := nat) mean_ops 0.001 1e-4 0.9 0.9 1e-8 0).

Lemma sgd0_returns key lr_scale (w g : ndarray) :
  length g = length w -> (SGD_call key lr_scale (Frame sgd0 w g)).1 = inr tt.
Proof.
  intros Hlen. apply SGD_call_returns; simpl.
  - exact Hlen.
  - intros m. by rewrite lookup_empty.
  - intros a avg [= <-]. by rewrite lookup_empty.
  - lra.
Qed.

Lemma adam0_returns lr_scale (k : nat) (w g : ndarray) :
  g <> [] -> length g = length w ->
  (Adam_call lr_scale (Some k) (Frame adam0 w g)).1 = inr tt.
Proof.
  intros Hg Hlen. apply Adam_call_returns; simpl.
  - done.
  - exact Hg.
  - exact Hlen.
  - intros m. by rewrite lookup_empty.
  - intros m. by rewrite lookup_empty.
  - intros a avg [= <-]. by rewrite lookup_empty.
  - lra.
Qed.


Lemma Adam_call_fails_iff_witness :
  length [1; 2] = length [3; 4]
  /\ (Adam_call 1 None (Frame adam0 [1; 2] [3; 4])).1 = inl AssertionError
  /\ (Adam_call 1 (Some 1%nat) (Frame adam0 [] [])).1 = inl AssertionError
  /\ (Adam_call 1 (Some 1%nat) (Frame adam0 [1; 2] [3; 4])).1 = inr tt.
Proof.
  pose proof (Adam_call_fails_iff 1 None (Frame adam0 [1; 2] [3; 4]) eq_refl)
    as [Hnone _].
  pose proof (Adam_call_fails_iff 1 (Some 1%nat) (Frame adam0 [1; 2] [3; 4]) eq_refl)
    as (_ & _ & Hsome).
  pose proof (Adam_call_fails_iff 1 (Some 1%nat) (Frame adam0 [] []) eq_refl)
    as [Hempty _].
  split; [reflexivity|]. split; [|split].
  - apply Hnone. left. reflexivity.
  - apply Hempty. right. reflexivity.
  - apply Hsome; simpl.
    + discriminate.
    + discriminate.
    + intros m. rewrite lookup_empty. discriminate.
    + intros m. rewrite lookup_empty. discriminate.
    + intros a avg [= <-]. rewrite lookup_empty. discriminate.
    + lra.
Defined.

Lemma Adam_call_fails_unchanged_witness :
  Adam_call 1 (Some 1%nat) (Frame adam0 [] [])
  = (inl AssertionError, Frame adam0 [] []).
Proof.
  apply (Adam_call_fails_unchanged 1 (Some 1%nat) (Frame adam0 [] [])).
  right. reflexivity.
Defined.

(** C4 as stated fails: a new [SGD] (averages enabled, none stored yet),
    called with the key [None], returns with an average buffer stored
    under [None]. *)
Lemma SGD_call_None_key_allocates_average :
  exists fr',
    SGD_call None 1 (Frame sgd0 [1; 2] [3; 4]) = (inr tt, fr')
    /\ SGD_averages sgd0 = Some ∅
    /\ exists a avg, SGD_averages (self fr') = Some a /\ a !! None = Some avg.
Proof.
  destruct (SGD_call None 1 (Frame sgd0 [1; 2] [3; 4])) as [r fr'] eqn:E.
  pose proof (sgd0_returns None 1 [1; 2] [3; 4] eq_refl) as Hr.
  rewrite E in Hr. simpl in Hr. subst r.
  exists fr'. split; [reflexivity|]. split; [reflexivity|].
  rewrite SGD_call_unfold in E. cbv zeta in E.
  destruct (SGD_lr _ _) as [e|lr]; [discriminate E|].
  rewrite bool_decide_true in E by reflexivity. simpl in E.
  destruct (isub _ _) as [e|w1]; [discriminate E|].
  apply SGD_track_average_inv in E as [Ha _]. simpl in Ha.
  eexists _, _. split; [exact Ha|]. apply lookup_insert_eq.
Qed.

Lemma SGD_call_None_key_witness :
  exists fr',
    SGD_call None 1 (Frame sgd0 [1; 2] [3; 4]) = (inr tt, fr')
    /\ SGD_momentums (self fr') = ∅
    /\ exists a', SGD_averages (self fr') = Some a' /\ is_Some (a' !! None).
Proof.
  destruct (SGD_call None 1 (Frame sgd0 [1; 2] [3; 4])) as [r fr'] eqn:E.
  pose proof (sgd0_returns None 1 [1; 2] [3; 4] eq_refl) as Hr.
  rewrite E in Hr. simpl in Hr. subst r.
  exists fr'. split; [reflexivity|].
  destruct (SGD_call_None_key 1 _ _ E) as (Hm & _ & _ & _ & Ha).
  split; [exact Hm|].
  destruct (Ha ∅ eq_refl) as (a' & Ha' & Hin & _). eauto.
Defined.

(** C7 as stated fails: a gradient of norm 200 is clipped to norm 100
    before it is applied, so the weights move by 100 and not by 200. *)
Lemma SGD_call_first_update_clips :
  SGD_mu sgd0 = 0
  /\ SGD_nr_update sgd0 !! Some 1%nat = None
  /\ weights (SGD_call (Some 1%nat) 1 (Frame sgd0 [0] [200])).2 = [-100]
  /\ zip_with (fun w g => w - SGD_alpha sgd0 / (1 + SGD_decay sgd0) * g) [0] [200]
     = [-200]
  /\ weights (SGD_call (Some 1%nat) 1 (Frame sgd0 [0] [200])).2
     <> zip_with (fun w g => w - SGD_alpha sgd0 / (1 + SGD_decay sgd0) * g) [0] [200].
Proof.
  assert (Hw : weights (SGD_call (Some 1%nat) 1 (Frame sgd0 [0] [200])).2 = [-100]).
  { rewrite (SGD_call_direct_weights (Some 1%nat) 1 (Frame sgd0 [0] [200]) 1).
    - simpl. rewrite ops_clip_gradient_over.
      + rewrite norm_singleton, Rabs_right by lra. simpl. f_equal. lra.
      + rewrite norm_singleton, Rabs_right by lra. simpl. lra.
    - right. reflexivity.
    - reflexivity.
    - unfold SGD_lr, counter. simpl. rewrite lookup_empty. simpl.
      rewrite linear_decay_value; simpl; [f_equal; lra|lra]. }
  split; [reflexivity|]. split; [apply lookup_empty|]. split; [exact Hw|].
  assert (Hz : zip_with (fun w g => w - SGD_alpha sgd0 / (1 + SGD_decay sgd0) * g)
                 [0] [200] = [-200]).
  { simpl. f_equal. lra. }
  split; [exact Hz|]. rewrite Hw, Hz. intros [= Hneq]. lra.
Qed.

Lemma SGD_call_first_update_witness :
  SGD_lr sgd0 1 = inr (1 / (1 + 0))
  /\ weights (SGD_call (Some 1%nat) 1 (Frame sgd0 [0; 1] [3; 4])).2
     = [0 - 1 / (1 + 0) * 3; 1 - 1 / (1 + 0) * 4]
  /\ (SGD_call (Some 1%nat) 1 (Frame sgd0 [0; 1] [3; 4])).1 = inr tt.
Proof.
  assert (Hdecay : 1 + SGD_decay sgd0 <> 0) by (simpl; lra).
  assert (Hnorm : norm [3; 4] <= SGD_max_grad_norm sgd0).
  { unfold norm. simpl.
    replace (3 * 3 + (4 * 4 + 0)) with (5 * 5) by lra.
    rewrite sqrt_square by lra. lra. }
  destruct (SGD_call_first_update (Some 1%nat) (Frame sgd0 [0; 1] [3; 4])
              eq_refl (lookup_empty _) eq_refl Hdecay)
    as (Hlr & _ & _ & Hw & Hret).
  split; [exact Hlr|]. split; [exact (Hw Hnorm)|].
  apply Hret. simpl. intros a avg [= <-]. rewrite lookup_empty. discriminate.
Defined.

(** An [Eve] around [sgd0] that has been told a first loss. *)
Abbreviation eve_after loss := (Eve_set_loss loss (Eve_init (OptSGD sgd0))).2.

(** C3 as stated fails: with the baseline 0 the quotient [loss / old_f]
    raises, and neither [d] nor the baseline is stored anew. *)
Lemma Eve_set_loss_zero_baseline :
  Eve_f (eve_after 0) = Some 0
  /\ Eve_set_loss 1 (eve_after 0) = (inl ZeroDivisionError, eve_after 0)
  /\ Eve_f (Eve_set_loss 1 (eve_after 0)).2
     <> Some (1 / (Eve_upper_threshold (eve_after 0) + 1) * 1).
Proof.
  assert (E : Eve_set_loss 1 (eve_after 0) = (inl ZeroDivisionError, eve_after 0)).
  { unfold Eve_set_loss at 1, bind at 1, gets at 1.
    change (Eve_f (eve_after 0)) with (Some 0).
    unfold bind at 1, gets at 1. unfold bind at 1, lift at 1.
    by rewrite Eve_get_c_zero_baseline. }
  split; [reflexivity|]. split; [exact E|].
  rewrite E. simpl. intros [= Hneq]. lra.
Qed.

Lemma Eve_set_loss_rescales_witness :
  Eve_get_c (eve_after 2) 1 2 = inr (0.1 + 1)
  /\ Eve_f (Eve_set_loss 1 (eve_after 2)).2 = Some ((0.1 + 1) * 1)
  /\ Eve_d (Eve_set_loss 1 (eve_after 2)).2
     = 1 + (1 - 0.999) * (Rabs ((0.1 + 1) * 1 - 2) / Rmin ((0.1 + 1) * 1) 2 - 1)
  /\ Eve_set_loss 0 (eve_after 2) = (inl ZeroDivisionError, eve_after 2).
Proof.
  assert (Hu : Eve_upper_threshold (eve_after 2) + 1 <> 0) by (simpl; lra).
  assert (Hl : Eve_lower_threshold (eve_after 2) + 1 <> 0) by (simpl; lra).
  assert (Hf : (2 : R) <> 0) by lra.
  pose proof (Eve_set_loss_rescales (eve_after 2) 1 2 eq_refl Hu Hl) as Hthm.
  cbv zeta in Hthm. destruct (Rlt_dec 1 2) as [_|Hge]; [|lra].
  assert (Hmin : Rmin ((Eve_lower_threshold (eve_after 2) + 1) * 1) 2 <> 0).
  { simpl. unfold Rmin. destruct (Rle_dec _ _); lra. }
  destruct (proj1 Hthm Hf Hmin) as [Hc Hset].
  split; [exact Hc|]. rewrite Hset. split; [reflexivity|]. split; [reflexivity|].
  pose proof (Eve_set_loss_rescales (eve_after 2) 0 2 eq_refl Hu Hl) as Hzero.
  cbv zeta in Hzero. apply (proj2 Hzero). right.
  destruct (Rlt_dec 0 2) as [_|Hge]; [|lra].
  rewrite Rmult_0_r. unfold Rmin. destruct (Rle_dec 0 2); [reflexivity|lra].
Defined.


Lemma Adam_call_L2_then_clip_witness :
  exists fr',
    Adam_call 1 (Some 1%nat) (Frame adam0 [1; 2] [3; 4]) = (inr tt, fr')
    /\ norm (ops_clip_gradient [3 + 1e-4 * 1; 4 + 1e-4 * 2] (INR 2 / 100))
       <= INR 2 / 100.
Proof.
  destruct (Adam_call 1 (Some 1%nat) (Frame adam0 [1; 2] [3; 4])) as [r fr'] eqn:E.
  assert (Hg : [3; 4] <> @nil R) by discriminate.
  pose proof (adam0_returns 1 1%nat [1; 2] [3; 4] Hg eq_refl) as Hr.
  rewrite E in Hr. simpl in Hr. subst r.
  exists fr'. split; [reflexivity|].
  destruct (Adam_call_L2_then_clip 1 _ _ _ E eq_refl) as [Hnorm _].
  exact Hnorm.
Defined.

(** C2 fails on the code: [Adam(ops, 0.001)] has [beta2 = 0.999], yet
    the second moment it stores after one update of a new key with the
    gradient [0.01] is [(1 - 0.9) * 0.01^2], decayed with [beta1 = 0.9];
    the rule with [beta2] would store [(1 - 0.999) * 0.01^2]. *)
Theorem Adam_call_decays_second_moment_with_beta1 :
  exists fr',
    Adam_call 1 (Some 1%nat) (Frame adam0 [0] [0.01]) = (inr tt, fr')
    /\ Adam_b1 adam0 = 0.9 /\ Adam_b2 adam0 = 0.999
    /\ Adam_mom2 (self fr') !! Some 1%nat = Some [0.00001]
    /\ adam_mom2 (Adam_b2 adam0) [0] [0.01] = [0.0000001]
    /\ Adam_mom2 (self fr') !! Some 1%nat
       <> Some (adam_mom2 (Adam_b2 adam0) [0] [0.01]).
Proof.
  destruct (Adam_call 1 (Some 1%nat) (Frame adam0 [0] [0.01])) as [r fr'] eqn:E.
  assert (Hg : [0.01] <> @nil R) by discriminate.
  pose proof (adam0_returns 1 1%nat [0] [0.01] Hg eq_refl) as Hr.
  rewrite E in Hr. simpl in Hr. subst r.
  exists fr'. split; [reflexivity|]. split; [reflexivity|]. split; [reflexivity|].
  apply Adam_call_inv in E as (g1 & lr & _ & _ & E1 & _ & _ & _ & Em2).
  simpl in E1, Em2. injection E1 as <-.
  rewrite ops_clip_gradient_under in Em2.
  2:{ rewrite norm_singleton, Rabs_right by lra. simpl. lra. }
  rewrite lookup_empty in Em2. simpl in Em2.
  assert (Hcode : Adam_mom2 (self fr') !! Some 1%nat = Some [0.00001]).
  { rewrite Em2, lookup_insert_eq. do 2 f_equal. lra. }
  assert (Hrule : adam_mom2 (Adam_b2 adam0) [0] [0.01] = [0.0000001]).
  { simpl. f_equal. lra. }
  split; [exact Hcode|]. split; [exact Hrule|].
  rewrite Hcode, Hrule. intros [= Hneq]. lra.
Qed.

(** ** Instances of the further properties *)

(** [SGD(ops, 1.0, momentum=0.9)] and [Adam(ops, 0.001, decay=-1.0)]. *)
Abbreviation sgd_momentum := (SGD_init (K := nat) mean_ops 1 0.9 0 true).
Abbreviation adam_undefined_rate :=
  (Adam_init (K := nat) mean_ops 0.001 1e-4 0.9 0.999 1e-8 (-1)).

Lemma linear_decay_schedule_witness :
  exists r1 r2,
    linear_decay 1 0.5 1 = inr r1 /\ linear_decay 1 0.5 2 = inr r2
    /\ r2 <= r1 /\ r1 <= 1.
Proof.
  assert (H1 : 0 <= 1) by lra. assert (H2 : 0 <= 0.5) by lra.
  destruct (linear_decay_schedule 1 0.5 1 2 H1 H2 (le_S 1 1 (le_n 1)))
    as (r1 & r2 & E1 & E2 & _ & Hle & Hrate & _).
  exists r1, r2. repeat split; assumption.
Defined.

Lemma Adam_call_raises_midway_witness :
  (Adam_call 1 (Some 1%nat) (Frame adam_undefined_rate [1; 2] [3; 4])).1
  = inl ZeroDivisionError
  /\ weights (Adam_call 1 (Some 1%nat) (Frame adam_undefined_rate [1; 2] [3; 4])).2
     = [1; 2]
  /\ counter
       (Adam_nr_update
          (self (Adam_call 1 (Some 1%nat)
                   (Frame adam_undefined_rate [1; 2] [3; 4])).2))
       (Some 1%nat) = 1%nat.
Proof.
  assert (Hkey : Some 1%nat <> @None nat) by discriminate.
  assert (Hg : [3; 4] <> @nil R) by discriminate.
  assert (Hz : 1 + Adam_decay adam_undefined_rate
                   * INR (counter (Adam_nr_update adam_undefined_rate)
                            (Some 1%nat) + 1) = 0).
  { unfold counter. simpl. rewrite lookup_empty. simpl. lra. }
  destruct (Adam_call_raises_midway 1 (Some 1%nat)
              (Frame adam_undefined_rate [1; 2] [3; 4]) Hkey Hg eq_refl Hz)
    as (Hr & Hw & _ & Hn & _).
  split; [exact Hr|]. split; [exact Hw|].
  rewrite Hn. rewrite counter_incr. unfold counter. simpl.
  rewrite lookup_empty. reflexivity.
Defined.

Lemma sgd_momentum_returns key lr_scale (w g : ndarray) :
  length g = length w ->
  (SGD_call key lr_scale (Frame sgd_momentum w g)).1 = inr tt.
Proof.
  intros Hlen. apply SGD_call_returns; simpl.
  - exact Hlen.
  - intros m. by rewrite lookup_empty.
  - intros a avg [= <-]. by rewrite lookup_empty.
  - lra.
Qed.

Lemma SGD_call_momentum_step_witness :
  exists fr' m',
    SGD_call (Some 1%nat) 1 (Frame sgd_momentum [1; 2] [3; 4]) = (inr tt, fr')
    /\ SGD_momentums (self fr') !! Some 1%nat = Some m'
    /\ weights fr' = zip_with Rminus [1; 2] m'.
Proof.
  destruct (SGD_call (Some 1%nat) 1 (Frame sgd_momentum [1; 2] [3; 4]))
    as [r fr'] eqn:E.
  pose proof (sgd_momentum_returns (Some 1%nat) 1 [1; 2] [3; 4] eq_refl) as Hr.
  rewrite E in Hr. simpl in Hr. subst r.
  assert (Hkey : Some 1%nat <> @None nat) by discriminate.
  assert (Hmu : SGD_mu (self (Frame sgd_momentum [1; 2] [3; 4])) <> 0)
    by (simpl; lra).
  assert (Hm0 : length (default (ops_allocate 2)
                          (SGD_momentums sgd_momentum !! Some 1%nat)) = 2%nat).
  { simpl. rewrite lookup_empty. reflexivity. }
  destruct (SGD_call_momentum_step (Some 1%nat) 1 _ fr' E Hkey Hmu eq_refl Hm0)
    as (lr & _ & Hm & Hw & _).
  eexists fr', _. split; [reflexivity|]. split; [|exact Hw].
  rewrite Hm. apply lookup_insert_eq.
Defined.

Lemma SGD_call_first_step_ignores_momentum_witness :
  weights (SGD_call (Some 1%nat) 1 (Frame sgd_momentum [0] [2])).2
  = [0 - 1 * 1 * 2].
Proof.
  assert (Hlr : SGD_lr sgd_momentum
                  (counter (SGD_nr_update sgd_momentum) (Some 1%nat) + 1)
                = inr 1).
  { unfold SGD_lr, counter. simpl. rewrite lookup_empty. simpl.
    rewrite linear_decay_value; simpl; [f_equal; lra|lra]. }
  rewrite (SGD_call_first_step_ignores_momentum (Some 1%nat) 1
             (Frame sgd_momentum [0] [2]) 1 (lookup_empty _) eq_refl Hlr).
  simpl. rewrite ops_clip_gradient_under; [reflexivity|].
  rewrite norm_singleton, Rabs_right by lra. lra.
Defined.

Lemma SGD_call_twice_witness :
  exists fr1,
    SGD_call None 1 (Frame sgd0 [1; 2] [3; 4]) = (inr tt, fr1)
    /\ weights (SGD_call None 1 fr1).2 = weights fr1
    /\ gradient (SGD_call None 1 fr1).2 = [0; 0].
Proof.
  destruct (SGD_call None 1 (Frame sgd0 [1; 2] [3; 4])) as [r fr1] eqn:E.
  pose proof (sgd0_returns None 1 [1; 2] [3; 4] eq_refl) as Hr.
  rewrite E in Hr. simpl in Hr. subst r.
  destruct (SGD_call_twice None 1 1 (Frame sgd0 [1; 2] [3; 4]) fr1
              (or_introl eq_refl) eq_refl E)
    as (Hw & Hg & _).
  exists fr1. split; [reflexivity|]. split; [exact Hw|].
  rewrite Hg. exact (SGD_call_gradient _ _ _ _ E).
Defined.

Lemma other_keys_untouched_witness :
  SGD_nr_update (self (SGD_call (Some 1%nat) 1 (Frame sgd0 [1] [2])).2)
    !! Some 2%nat = None
  /\ Adam_mom1 (self (Adam_call 1 (Some 1%nat) (Frame adam0 [1] [2])).2)
       !! Some 2%nat = None.
Proof.
  assert (Hk : Some 2%nat <> Some 1%nat) by discriminate.
  destruct (other_keys_untouched (Some 1%nat) (Some 2%nat) Hk) as [Hsgd Hadam].
  destruct (Hsgd 1 (Frame sgd0 [1] [2])) as (Hn & _).
  destruct (Hadam 1 (Frame adam0 [1] [2])) as (_ & Hm & _).
  split.
  - rewrite Hn. apply lookup_empty.
  - rewrite Hm. apply lookup_empty.
Defined.

Lemma Eve_around_Adam_needs_key_witness :
  Eve_call None (Frame (Eve_init (OptAdam adam0)) [1; 2] [3; 4])
  = (inl AssertionError, Frame (Eve_init (OptAdam adam0)) [1; 2] [3; 4]).
Proof.
  exact (Eve_around_Adam_needs_key (Eve_init (OptAdam adam0)) adam0
           [1; 2] [3; 4] eq_refl).
Defined.

Lemma Adam_lr_defined_witness :
  exists lr, Adam_lr adam0 1 = inr lr /\ 0 <= lr.
Proof.
  assert (H1 : 0 <= Adam_alpha adam0) by (simpl; lra).
  assert (H2 : 0 <= Adam_decay adam0) by (simpl; lra).
  assert (H3 : 0 <= Adam_b1 adam0 < 1) by (simpl; lra).
  assert (H4 : 0 <= Adam_b2 adam0 < 1) by (simpl; lra).
  exact (proj2 (proj2 (Adam_lr_defined adam0 1 H1 H2 H3 H4 (le_n 1)))).
Defined.

Lemma SGD_call_length_mismatch_witness :
  SGD_call (Some 1%nat) 1 (Frame sgd0 [1; 2; 3] [4; 5])
  = (inl ValueError,
     Frame (SGD_set_nr_update (incr (Some 1%nat) ∅) sgd0) [1; 2; 3]
           (ops_clip_gradient [4; 5] 100)).
Proof.
  assert (Hlen : length [4; 5] <> length [1; 2; 3]) by (simpl; lia).
  assert (Hone : length [4; 5] <> 1%nat) by (simpl; lia).
  assert (Hdecay : 1 + SGD_decay sgd0
                       * INR (counter (SGD_nr_update sgd0) (Some 1%nat) + 1) <> 0)
    by (simpl; lra).
  exact (SGD_call_length_mismatch (Some 1%nat) 1 (Frame sgd0 [1; 2; 3] [4; 5])
           (or_intror eq_refl) Hlen Hone Hdecay).
Defined.
